(** * ScannerScreen (app/index.tsx): the scan, save and refresh flow

    A shallow embedding of the screen component.  The component is a set of
    [useState] cells, two effects and two callbacks; every [await] of the
    source is a suspension point of the single-threaded event loop.  The
    embedding keeps

    - the [useState] cells and the closure variable [active] as fields of a
      record,
    - the suspended [async] functions as a finite map from promise ids to
      the continuation that waits on them,
    - every call to a collaborator (web service, location, clipboard,
      database connector, alert) and every call of a state setter in a
      trace.

    The environment drives the screen through events: the camera reports a
    code, a promise settles, the user presses a button, the screen is torn
    down. *)

From Stdlib Require Import Floats.PrimFloat.
From stdpp Require Import gmap strings list.

Open Scope string_scope.

(** ** Data *)

(** [BarcodeScanningResult] of expo-camera: the fields the handler reads. *)
Record BarcodeScanningResult := {
  data : string;
  type : string;
}.

(** [CodeRecord] of ../src/models, as this file uses it: [item.id] may be
    missing (the key extractor falls back to a random key), [content] and
    [format] are strings. *)
Record CodeRecord := {
  id : option string;
  content : string;
  format : string;
}.

(** [Location.LocationObject]: [coords.latitude] and [coords.longitude] are
    JavaScript numbers. *)
Record LocationCoords := {
  latitude : float;
  longitude : float;
}.

Record LocationObject := {
  coords : LocationCoords;
}.

(** The [status] of a location permission response. *)
Inductive PermissionStatus := GRANTED | DENIED | UNDETERMINED.

(** The camera permission object: only [granted] is read. *)
Record PermissionResponse := {
  granted : bool;
}.

(** A [DatabaseHandler] is opaque to the screen; a handle is known by its
    identity only. *)
Definition DatabaseHandler := nat.

#[global] Instance CodeRecord_eq_dec : EqDecision CodeRecord.
Proof. solve_decision. Defined.

#[global] Instance PermissionStatus_eq_dec : EqDecision PermissionStatus.
Proof. solve_decision. Defined.

(** ** The event loop *)

(** Which flow asked for the full list. *)
Inductive Origin :=
| OnDatabaseReady   (* the effect on [database] *)
| AfterScan.        (* handleScanResult *)

(** What the screen does to the outside, and the setter calls it makes. *)
Inductive Call :=
| AlertAlert (title message : string)
| SaveCode (content format : string)
| FetchAllCodes (o : Origin)
| RequestForegroundPermissionsAsync
| GetCurrentPositionAsync
| ConnectDatabase
| CloseConnection (db : DatabaseHandler)
| SetStringAsync (text : string)
| SetCodeRecords (records : list CodeRecord)
| SetDatabase (db : DatabaseHandler)
| SetLocationError (message : string)
| SetCurrentLocation (position : LocationObject).

(** An [async] function suspended at one of its [await]s. *)
Inductive Suspended :=
| AwaitPermissions            (* setupLocationService, first await *)
| AwaitPosition               (* setupLocationService, second await *)
| AwaitConnect                (* initializeDatabase *)
| AwaitSaveCode               (* handleScanResult, first await *)
| AwaitFetch (o : Origin).    (* handleScanResult, second await; the effect on [database] *)

(** The value a promise resolves with. *)
Inductive Settled :=
| PermissionsResult (status : PermissionStatus)
| PositionResult (position : LocationObject)
| Connected (dbInstance : DatabaseHandler)
| Saved
| Fetched (records : list CodeRecord).

Inductive Lifecycle := Mounted | Unmounted.

Record Screen := {
  (* useState *)
  currentLocation : option LocationObject;
  locationError : option string;
  cameraPermissions : option PermissionResponse;
  codeRecords : list CodeRecord;
  database : option DatabaseHandler;
  (* [let active] of the first effect *)
  active : bool;
  (* the cleanup the effect on [database] returned: the handle it captured *)
  cleanup : option DatabaseHandler;
  lifecycle : Lifecycle;
  (* promises not yet settled, with the continuation waiting on each *)
  pending : gmap nat Suspended;
  next : nat;
  (* calls made so far, the latest first *)
  trace : list Call;
}.

Definition emit (c : Call) (s : Screen) : Screen :=
  {| currentLocation := currentLocation s; locationError := locationError s;
     cameraPermissions := cameraPermissions s; codeRecords := codeRecords s;
     database := database s; active := active s; cleanup := cleanup s;
     lifecycle := lifecycle s; pending := pending s; next := next s;
     trace := c :: trace s |}.

(** [await]: the promise just obtained gets the next id and the rest of the
    function waits on it. *)
Definition suspend (k : Suspended) (s : Screen) : Screen :=
  {| currentLocation := currentLocation s; locationError := locationError s;
     cameraPermissions := cameraPermissions s; codeRecords := codeRecords s;
     database := database s; active := active s; cleanup := cleanup s;
     lifecycle := lifecycle s; pending := <[next s := k]> (pending s);
     next := S (next s); trace := trace s |}.

Definition settle (p : nat) (s : Screen) : Screen :=
  {| currentLocation := currentLocation s; locationError := locationError s;
     cameraPermissions := cameraPermissions s; codeRecords := codeRecords s;
     database := database s; active := active s; cleanup := cleanup s;
     lifecycle := lifecycle s; pending := delete p (pending s);
     next := next s; trace := trace s |}.

Definition with_currentLocation (v : option LocationObject) (s : Screen) : Screen :=
  {| currentLocation := v; locationError := locationError s;
     cameraPermissions := cameraPermissions s; codeRecords := codeRecords s;
     database := database s; active := active s; cleanup := cleanup s;
     lifecycle := lifecycle s; pending := pending s; next := next s;
     trace := trace s |}.

Definition with_locationError (v : option string) (s : Screen) : Screen :=
  {| currentLocation := currentLocation s; locationError := v;
     cameraPermissions := cameraPermissions s; codeRecords := codeRecords s;
     database := database s; active := active s; cleanup := cleanup s;
     lifecycle := lifecycle s; pending := pending s; next := next s;
     trace := trace s |}.

Definition with_cameraPermissions (v : option PermissionResponse) (s : Screen) : Screen :=
  {| currentLocation := currentLocation s; locationError := locationError s;
     cameraPermissions := v; codeRecords := codeRecords s;
     database := database s; active := active s; cleanup := cleanup s;
     lifecycle := lifecycle s; pending := pending s; next := next s;
     trace := trace s |}.

Definition with_codeRecords (v : list CodeRecord) (s : Screen) : Screen :=
  {| currentLocation := currentLocation s; locationError := locationError s;
     cameraPermissions := cameraPermissions s; codeRecords := v;
     database := database s; active := active s; cleanup := cleanup s;
     lifecycle := lifecycle s; pending := pending s; next := next s;
     trace := trace s |}.

Definition with_database (v : option DatabaseHandler) (s : Screen) : Screen :=
  {| currentLocation := currentLocation s; locationError := locationError s;
     cameraPermissions := cameraPermissions s; codeRecords := codeRecords s;
     database := v; active := active s; cleanup := cleanup s;
     lifecycle := lifecycle s; pending := pending s; next := next s;
     trace := trace s |}.

Definition with_active (v : bool) (s : Screen) : Screen :=
  {| currentLocation := currentLocation s; locationError := locationError s;
     cameraPermissions := cameraPermissions s; codeRecords := codeRecords s;
     database := database s; active := v; cleanup := cleanup s;
     lifecycle := lifecycle s; pending := pending s; next := next s;
     trace := trace s |}.

Definition with_cleanup (v : option DatabaseHandler) (s : Screen) : Screen :=
  {| currentLocation := currentLocation s; locationError := locationError s;
     cameraPermissions := cameraPermissions s; codeRecords := codeRecords s;
     database := database s; active := active s; cleanup := v;
     lifecycle := lifecycle s; pending := pending s; next := next s;
     trace := trace s |}.

Definition with_lifecycle (v : Lifecycle) (s : Screen) : Screen :=
  {| currentLocation := currentLocation s; locationError := locationError s;
     cameraPermissions := cameraPermissions s; codeRecords := codeRecords s;
     database := database s; active := active s; cleanup := cleanup s;
     lifecycle := v; pending := pending s; next := next s;
     trace := trace s |}.

Definition mounted (s : Screen) : bool :=
  match lifecycle s with Mounted => true | Unmounted => false end.

(** ** State setters

    A setter call is recorded and the cell takes the value passed. *)

Definition setCodeRecords (records : list CodeRecord) (s : Screen) : Screen :=
  with_codeRecords records (emit (SetCodeRecords records) s).

Definition setLocationError (message : string) (s : Screen) : Screen :=
  with_locationError (Some message) (emit (SetLocationError message) s).

Definition setCurrentLocation (position : LocationObject) (s : Screen) : Screen :=
  with_currentLocation (Some position) (emit (SetCurrentLocation position) s).

(** ** The effect on [database] (lines 61-70) *)

(** The cleanup of the effect, when it returned one:
    [() => database.closeConnection()]. *)
Definition runCleanup (s : Screen) : Screen :=
  match cleanup s with
  | Some db => with_cleanup None (emit (CloseConnection db) s)
  | None => s
  end.

(** The effect runs after the first render and after every render in which
    [database] differs from the previous one; the previous cleanup runs
    first. *)
Definition databaseEffect (s : Screen) : Screen :=
  let s := runCleanup s in
  match database s with
  | None => s
  | Some db =>
      let s := suspend (AwaitFetch OnDatabaseReady) (emit (FetchAllCodes OnDatabaseReady) s) in
      with_cleanup (Some db) s
  end.

(** [setDatabase]: on a mounted screen a changed value gives a new render,
    after which the effect on [database] runs.  A screen that was torn down
    is not rendered again, so no effect runs for it. *)
Definition setDatabase (dbInstance : DatabaseHandler) (s : Screen) : Screen :=
  let changed := negb (bool_decide (database s = Some dbInstance)) in
  let s := with_database (Some dbInstance) (emit (SetDatabase dbInstance) s) in
  if mounted s && changed then databaseEffect s else s.

(** ** handleScanResult (lines 20-30) *)

Definition handleScanResult (scanData : BarcodeScanningResult) (s : Screen) : Screen :=
  let s := emit (AlertAlert "Código detectado" (data scanData)) s in
  let s := emit (SaveCode (data scanData) (type scanData)) s in
  suspend AwaitSaveCode s.

(** ** copyToClipboard (lines 98-101) *)

Definition copyToClipboard (item : CodeRecord) (s : Screen) : Screen :=
  let s := emit (SetStringAsync (content item)) s in
  emit (AlertAlert "Copiado!" "Texto en portapapeles") s.

(** The fixed message of line 41. *)
Definition permissionDenied : string := "Permiso de ubicación no otorgado".

(** ** Resuming a suspended function *)

Definition resume (k : Suspended) (v : Settled) (s : Screen) : option Screen :=
  match k, v with
  | AwaitPermissions, PermissionsResult status =>
      if negb (active s) then Some s
      else if negb (bool_decide (status = GRANTED)) then
        Some (setLocationError permissionDenied s)
      else
        Some (suspend AwaitPosition (emit GetCurrentPositionAsync s))
  | AwaitPosition, PositionResult position =>
      if active s then Some (setCurrentLocation position s) else Some s
  | AwaitConnect, Connected dbInstance =>
      Some (setDatabase dbInstance s)
  | AwaitSaveCode, Saved =>
      Some (suspend (AwaitFetch AfterScan) (emit (FetchAllCodes AfterScan) s))
  | AwaitFetch _, Fetched records =>
      Some (setCodeRecords records s)
  | _, _ => None
  end.

(** ** Mounting and tearing down *)

Definition initial : Screen :=
  {| currentLocation := None; locationError := None;
     cameraPermissions := None; codeRecords := [];
     database := None; active := false; cleanup := None;
     lifecycle := Mounted; pending := ∅; next := 0; trace := [] |}.

(** The first render followed by the two effects, in the order of the
    source: [setupLocationService()] and [initializeDatabase()] each run up
    to their first [await]; then the effect on [database], which finds it
    undefined. *)
Definition mount : Screen :=
  let s := with_active true initial in
  let s := suspend AwaitPermissions (emit RequestForegroundPermissionsAsync s) in
  let s := suspend AwaitConnect (emit ConnectDatabase s) in
  databaseEffect s.

(** Teardown runs the cleanups in the order the effects were declared. *)
Definition unmount (s : Screen) : Screen :=
  let s := with_active false s in
  let s := runCleanup s in
  with_lifecycle Unmounted s.

(** ** Rendering *)

(** [locationError ? ... : currentLocation ? ... : ...]: a string is truthy
    when it is not empty. *)
Definition locationStatus (toString : float → string)
    (locationError : option string) (currentLocation : option LocationObject) : string :=
  let truthy := match locationError with Some "" | None => false | Some _ => true end in
  if truthy then "Error: " +:+ default "" locationError
  else match currentLocation with
       | Some l =>
           "Ubicación: " +:+ toString (latitude (coords l)) +:+ ", "
             +:+ toString (longitude (coords l))
       | None => "Obteniendo ubicación..."
       end.

Inductive View :=
| EmptyView
| PermissionPrompt
| ScannerView (locationStatus : string) (records : list CodeRecord).

Definition render (toString : float → string) (s : Screen) : View :=
  match cameraPermissions s with
  | None => EmptyView
  | Some response =>
      if negb (granted response) then PermissionPrompt
      else ScannerView (locationStatus toString (locationError s) (currentLocation s))
                       (codeRecords s)
  end.

(** The camera view and the list are on screen. *)
Definition scanning (s : Screen) : bool :=
  mounted s && match cameraPermissions s with Some r => granted r | None => false end.

(** ** Events and steps *)

Inductive Event :=
| CameraPermissionsChange (response : PermissionResponse)
| BarcodeScanned (scanData : BarcodeScanningResult)
| PressCopy (item : CodeRecord)
| Resolve (p : nat) (v : Settled)
| Reject (p : nat)
| Unmount.

(** One turn of the event loop; [None] when the event cannot happen in [s]
    (the promise is not pending or resolves with a value of another kind,
    the camera or the list is not on screen, the screen is gone). *)
Definition step (s : Screen) (e : Event) : option Screen :=
  match e with
  | CameraPermissionsChange response =>
      if mounted s then Some (with_cameraPermissions (Some response) s) else None
  | BarcodeScanned scanData =>
      if scanning s then Some (handleScanResult scanData s) else None
  | PressCopy item =>
      if scanning s && bool_decide (item ∈ codeRecords s)
      then Some (copyToClipboard item s) else None
  | Resolve p v =>
      match pending s !! p with
      | Some k => resume k v (settle p s)
      | None => None
      end
  | Reject p =>
      (* the awaiting function throws; nothing in the source catches it *)
      match pending s !! p with
      | Some _ => Some (settle p s)
      | None => None
      end
  | Unmount =>
      if mounted s then Some (unmount s) else None
  end.

Fixpoint run (s : Screen) (es : list Event) : option Screen :=
  match es with
  | [] => Some s
  | e :: es =>
      match step s e with
      | Some s' => run s' es
      | None => None
      end
  end.

Definition reachable (s : Screen) : Prop := ∃ es, run mount es = Some s.

(** ** Reading the trace *)

Fixpoint count (f : Call → bool) (l : list Call) : nat :=
  match l with
  | [] => 0
  | c :: l => (if f c then 1 else 0) + count f l
  end.

Definition is_close (c : Call) : bool :=
  match c with CloseConnection _ => true | _ => false end.

Definition is_fetch (o : Origin) (c : Call) : bool :=
  match c, o with
  | FetchAllCodes OnDatabaseReady, OnDatabaseReady => true
  | FetchAllCodes AfterScan, AfterScan => true
  | _, _ => false
  end.

Definition is_save (c : Call) : bool :=
  match c with SaveCode _ _ => true | _ => false end.

Definition is_service (c : Call) : bool :=
  match c with SaveCode _ _ | FetchAllCodes _ => true | _ => false end.

Definition is_position_query (c : Call) : bool :=
  match c with GetCurrentPositionAsync => true | _ => false end.

Definition is_permission_request (c : Call) : bool :=
  match c with RequestForegroundPermissionsAsync => true | _ => false end.

Definition is_location_setter (c : Call) : bool :=
  match c with SetLocationError _ | SetCurrentLocation _ => true | _ => false end.

Definition is_records_setter (c : Call) : bool :=
  match c with SetCodeRecords _ => true | _ => false end.

(** What an event delivers when it is the resolution of a fetch. *)
Definition fetched (e : Event) : option (list CodeRecord) :=
  match e with
  | Resolve _ (Fetched records) => Some records
  | _ => None
  end.

(** The result of the latest fetch that resolved in an execution, if any. *)
Fixpoint lastFetched (es : list Event) : option (list CodeRecord) :=
  match es with
  | [] => None
  | e :: es =>
      match lastFetched es with
      | Some records => Some records
      | None => fetched e
      end
  end.

(** ** Invariants of the reachable states *)

(** The location flow: [setupLocationService] waits for the permission
    (promise 0), then possibly for the position, and writes at most one of
    the two cells. *)
Record LocationInv (s : Screen) : Prop := {
  permission_id : ∀ p, pending s !! p = Some AwaitPermissions → p = 0;
  permission_waiting : ∀ p, pending s !! p = Some AwaitPermissions →
    locationError s = None ∧ currentLocation s = None
    ∧ count is_position_query (trace s) = 0
    ∧ ∀ q, pending s !! q ≠ Some AwaitPosition;
  position_unique : ∀ p q,
    pending s !! p = Some AwaitPosition → pending s !! q = Some AwaitPosition → p = q;
  position_waiting : ∀ q, pending s !! q = Some AwaitPosition →
    locationError s = None ∧ currentLocation s = None
    ∧ ∀ p, pending s !! p ≠ Some AwaitPermissions;
  error_fixed : ∀ m, locationError s = Some m →
    m = permissionDenied ∧ currentLocation s = None
    ∧ count is_position_query (trace s) = 0
    ∧ SetLocationError m ∈ trace s;
  location_fixed : ∀ l, currentLocation s = Some l →
    SetCurrentLocation l ∈ trace s;
  permission_once : count is_permission_request (trace s) = 1;
}.

(** The database flow: [initializeDatabase] waits for the open (promise 1);
    the effect on [database] fetches once and holds the cleanup while the
    screen is mounted. *)
Record DatabaseInv (s : Screen) : Prop := {
  connect_id : ∀ p, pending s !! p = Some AwaitConnect → p = 1 ∧ database s = None;
  undefined_idle : database s = None →
    cleanup s = None
    ∧ count (is_fetch OnDatabaseReady) (trace s) = 0
    ∧ count is_close (trace s) = 0;
  mounted_cleanup : lifecycle s = Mounted →
    cleanup s = database s ∧ count is_close (trace s) = 0 ∧ active s = true;
  mounted_fetch : lifecycle s = Mounted → database s ≠ None →
    count (is_fetch OnDatabaseReady) (trace s) = 1;
  fetch_at_most_once : (count (is_fetch OnDatabaseReady) (trace s) ≤ 1)%nat;
  unmounted_cleanup : lifecycle s = Unmounted → cleanup s = None ∧ active s = false;
}.

(** Promise ids are handed out in order and never reused. *)
Definition FreshIds (s : Screen) : Prop :=
  (2 ≤ next s)%nat ∧ ∀ p, (next s ≤ p)%nat → pending s !! p = None.

(** Calls and continuations that belong to the location flow. *)
Definition location_call (c : Call) : bool :=
  match c with
  | RequestForegroundPermissionsAsync | GetCurrentPositionAsync
  | SetLocationError _ | SetCurrentLocation _ => true
  | _ => false
  end.

Definition location_await (k : Suspended) : bool :=
  match k with AwaitPermissions | AwaitPosition => true | _ => false end.

(** Calls that belong to the effect on [database]. *)
Definition database_call (c : Call) : bool :=
  match c with
  | FetchAllCodes OnDatabaseReady | CloseConnection _ => true
  | _ => false
  end.

(** The location flow has no promise left to wait for. *)
Definition location_settled (s : Screen) : Prop :=
  ∀ q k, pending s !! q = Some k → location_await k = false.

(** The three forms of the status line. *)
Definition acquiringForm (text : string) : Prop :=
  text = "Obteniendo ubicación...".

Definition errorForm (text : string) : Prop :=
  ∃ message, message ≠ "" ∧ text = "Error: " +:+ message.

Definition coordinatesForm (toString : float → string) (text : string) : Prop :=
  ∃ lat lon, text = "Ubicación: " +:+ toString lat +:+ ", " +:+ toString lon.

(** ** Further readings of the trace and of an execution *)

Definition is_connect (c : Call) : bool :=
  match c with ConnectDatabase => true | _ => false end.

Definition is_set_database (c : Call) : bool :=
  match c with SetDatabase _ => true | _ => false end.

Definition is_clipboard (c : Call) : bool :=
  match c with SetStringAsync _ => true | _ => false end.

Fixpoint occurrences (f : Event → bool) (es : list Event) : nat :=
  match es with
  | [] => 0
  | e :: es => (if f e then 1 else 0) + occurrences f es
  end.

Definition is_scan (e : Event) : bool :=
  match e with BarcodeScanned _ => true | _ => false end.

Definition is_saved (e : Event) : bool :=
  match e with Resolve _ Saved => true | _ => false end.

Definition is_fetched (e : Event) : bool :=
  match e with Resolve _ (Fetched _) => true | _ => false end.

Definition is_copy (e : Event) : bool :=
  match e with PressCopy _ => true | _ => false end.

(** The event reports a camera permission that is granted. *)
Definition grants_camera (e : Event) : bool :=
  match e with CameraPermissionsChange response => granted response | _ => false end.

(** [initializeDatabase] has no promise left to wait for. *)
Definition connect_settled (s : Screen) : Prop :=
  ∀ q, pending s !! q ≠ Some AwaitConnect.

(** Every handle the screen closed is the one it holds, and it holds only
    a handle it was given by [setDatabase]. *)
Record HandleInv (s : Screen) : Prop := {
  handle_given : ∀ db, database s = Some db → SetDatabase db ∈ trace s;
  handle_closed : ∀ db, CloseConnection db ∈ trace s →
    lifecycle s = Unmounted ∧ database s = Some db;
}.

(** How often the bootstrap calls have been made. *)
Record BootstrapInv (s : Screen) : Prop := {
  connect_called_once : count is_connect (trace s) = 1;
  set_database_once : (count is_set_database (trace s) ≤ 1)%nat;
  set_database_none : database s = None → count is_set_database (trace s) = 0;
  position_once : (count is_position_query (trace s) ≤ 1)%nat;
  close_once : (count is_close (trace s) ≤ 1)%nat;
}.

(** The record list is the initial empty list or a list [setCodeRecords]
    was called with. *)
Definition records_fetched (s : Screen) : Prop :=
  codeRecords s = [] ∨ SetCodeRecords (codeRecords s) ∈ trace s.

(** Every text put on the clipboard is the content of a record of a list
    [setCodeRecords] was called with. *)
Definition clipboard_from_records (s : Screen) : Prop :=
  ∀ text, SetStringAsync text ∈ trace s →
    ∃ records item, SetCodeRecords records ∈ trace s
      ∧ item ∈ records ∧ content item = text.

(** The camera permission is known and granted. *)
Definition cameraGranted (s : Screen) : bool :=
  match cameraPermissions s with Some response => granted response | None => false end.

(** ** Keys of the list (line 134)

    [item.id || String(Math.random() * 10000)]: the id when it is present
    and not empty, otherwise a key drawn at random.  [random] is the value
    [Math.random()] returns for this item and [toString] is [String]. *)
Definition keyExtractor (toString : float → string) (random : float)
    (item : CodeRecord) : string :=
  match id item with
  | Some (String c k) => String c k
  | _ => toString (random * 10000)%float
  end.

(** The keys of a rendered list, one draw of [Math.random] per item. *)
Definition keys (toString : float → string) (randoms : list float)
    (items : list CodeRecord) : list string :=
  zip_with (keyExtractor toString) randoms items.

(** The item carries an id that is not empty. *)
Definition has_id (item : CodeRecord) : Prop :=
  ∃ k, id item = Some k ∧ k ≠ "".

(** * Properties *)

(** ** Steps, case by case *)

(** Opens a hypothesis [step s e = Some s'] into the cases of the source. *)
Ltac step_cases H :=
  match type of H with
  | step ?s ?e = Some _ =>
      tryif is_var e then destruct e as [? | ? | ? | ? [] | ? |] else idtac;
      cbn [step] in H;
      repeat case_match; simplify_eq;
      try (match goal with K : Suspended |- _ => destruct K end;
           cbn [resume] in H; repeat case_match; simplify_eq)
  end.

(** Unfolds the handlers and splits on every test they make. *)
Ltac unfold_handlers :=
  unfold unmount, setDatabase, databaseEffect, runCleanup, handleScanResult,
    copyToClipboard, setCodeRecords, setLocationError, setCurrentLocation in *;
  cbn in *; repeat (case_match; cbn in *; simplify_eq).

Lemma step_active_false s e s' :
  step s e = Some s' → active s = false → active s' = false.
Proof. intros H Ha. step_cases H; unfold_handlers; done. Qed.

(** Once the liveness flag is down, a step writes neither location cell. *)
Lemma step_inactive_location s e s' :
  step s e = Some s' → active s = false →
  locationError s' = locationError s ∧ currentLocation s' = currentLocation s
  ∧ count is_location_setter (trace s') = count is_location_setter (trace s).
Proof.
  intros H Ha. step_cases H; unfold_handlers; try done.
  all: rewrite ?Ha in *; cbn in *; congruence.
Qed.

Lemma run_inactive_location s es s' :
  run s es = Some s' → active s = false →
  active s' = false
  ∧ locationError s' = locationError s ∧ currentLocation s' = currentLocation s
  ∧ count is_location_setter (trace s') = count is_location_setter (trace s).
Proof.
  revert s. induction es as [|e es IH]; intros s Hr Ha; cbn in Hr.
  - by simplify_eq.
  - destruct (step s e) as [s1|] eqn:Hs; [|done].
    pose proof (step_active_false _ _ _ Hs Ha) as Ha1.
    destruct (step_inactive_location _ _ _ Hs Ha) as (E1 & E2 & E3).
    destruct (IH _ Hr Ha1) as (? & ? & ? & ?).
    repeat split; congruence.
Qed.

Lemma step_unmount_active s s' : step s Unmount = Some s' → active s' = false.
Proof. intros H. step_cases H. unfold_handlers; done. Qed.

(** ** The scan handler *)

Lemma resume_save s p :
  pending s !! p = Some AwaitSaveCode →
  step s (Resolve p Saved)
  = Some (suspend (AwaitFetch AfterScan) (emit (FetchAllCodes AfterScan) (settle p s))).
Proof. intros H. cbn. by rewrite H. Qed.

Lemma resume_fetch s p o records :
  pending s !! p = Some (AwaitFetch o) →
  step s (Resolve p (Fetched records)) = Some (setCodeRecords records (settle p s)).
Proof. intros H. cbn. by rewrite H. Qed.

Lemma resume_connect s p dbInstance :
  pending s !! p = Some AwaitConnect →
  step s (Resolve p (Connected dbInstance)) = Some (setDatabase dbInstance (settle p s)).
Proof. intros H. cbn. by rewrite H. Qed.

(** C1.  A scan event delivered while the camera is on screen runs
    [handleScanResult]: it submits exactly the pair (content = [data],
    format = [type]) to [saveCode] and waits on it; the save count grows by
    one whatever was scanned before, so a second detection of the same code
    is a second save with its own promise; the record list is not touched
    by the handler itself.  When the save resolves, one fetch of all records
    is issued, and when that fetch resolves the record list is replaced by
    its result, whatever the list held. *)
Theorem scan_saves_then_fetches_all
    (s : Screen) (scanData : BarcodeScanningResult) (records : list CodeRecord) :
  scanning s = true →
  let s1 := handleScanResult scanData s in
  let s2 := suspend (AwaitFetch AfterScan) (emit (FetchAllCodes AfterScan) (settle (next s) s1)) in
  step s (BarcodeScanned scanData) = Some s1
  ∧ trace s1 = SaveCode (data scanData) (type scanData)
               :: AlertAlert "Código detectado" (data scanData) :: trace s
  ∧ count is_save (trace s1) = S (count is_save (trace s))
  ∧ pending s1 !! next s = Some AwaitSaveCode
  ∧ codeRecords s1 = codeRecords s
  ∧ (∃ s1', step s1 (BarcodeScanned scanData) = Some s1'
       ∧ count is_save (trace s1') = S (S (count is_save (trace s)))
       ∧ pending s1' !! next s = Some AwaitSaveCode
       ∧ pending s1' !! S (next s) = Some AwaitSaveCode)
  ∧ step s1 (Resolve (next s) Saved) = Some s2
  ∧ trace s2 = FetchAllCodes AfterScan :: trace s1
  ∧ codeRecords s2 = codeRecords s
  ∧ pending s2 !! S (next s) = Some (AwaitFetch AfterScan)
  ∧ ∃ s3, step s2 (Resolve (S (next s)) (Fetched records)) = Some s3
       ∧ codeRecords s3 = records
       ∧ trace s3 = SetCodeRecords records :: trace s2.
Proof.
  intros Hscan s1 s2.
  assert (Hp1 : pending s1 !! next s = Some AwaitSaveCode)
    by (cbn; apply lookup_insert_eq).
  assert (Hp2 : pending s2 !! S (next s) = Some (AwaitFetch AfterScan))
    by (cbn; apply lookup_insert_eq).
  assert (Hscan1 : scanning s1 = true) by done.
  split_and!; try done.
  - cbn. by rewrite Hscan.
  - eexists. split; [cbn [step]; by rewrite Hscan1|].
    split_and!; [done| |apply lookup_insert_eq].
    cbn. rewrite lookup_insert_ne by lia. apply lookup_insert_eq.
  - by apply resume_save.
  - eexists. split; [by eapply resume_fetch|]. done.
Qed.

(** The scenario of the specification: content "ABC123", format "qr". *)
Lemma scan_saves_then_fetches_all_witness :
  let s := with_cameraPermissions (Some {| granted := true |}) mount in
  let scanData := {| data := "ABC123"; type := "qr" |} in
  let found := {| id := Some "1"; content := "ABC123"; format := "qr" |} in
  scanning s = true
  ∧ step s (BarcodeScanned scanData) = Some (handleScanResult scanData s)
  ∧ trace (handleScanResult scanData s)
    = [SaveCode "ABC123" "qr"; AlertAlert "Código detectado" "ABC123";
       ConnectDatabase; RequestForegroundPermissionsAsync]
  ∧ ∃ s2 s3, step (handleScanResult scanData s) (Resolve 2 Saved) = Some s2
      ∧ step s2 (Resolve 3 (Fetched [found])) = Some s3
      ∧ codeRecords s3 = [found].
Proof.
  intros s scanData found.
  destruct (scan_saves_then_fetches_all s scanData [found] eq_refl)
    as (H1 & H2 & _ & _ & _ & _ & H3 & _ & _ & _ & s3 & H5 & H6 & _).
  split; [reflexivity|]. split; [exact H1|]. split; [exact H2|].
  eexists _, s3. split; [exact H3|]. split; [exact H5|exact H6].
Defined.

(** ** The record list *)

(** A step either delivers the result of a fetch, which becomes the record
    list, or leaves the list and the count of its setter calls as they
    were. *)
Lemma step_codeRecords s e s' :
  step s e = Some s' →
  (∃ p o records, e = Resolve p (Fetched records)
      ∧ pending s !! p = Some (AwaitFetch o)
      ∧ codeRecords s' = records
      ∧ trace s' = SetCodeRecords records :: trace s)
  ∨ (fetched e = None
      ∧ codeRecords s' = codeRecords s
      ∧ count is_records_setter (trace s') = count is_records_setter (trace s)).
Proof.
  intros H. step_cases H; unfold_handlers; try (right; done).
  left. eauto 10.
Qed.

Lemma run_codeRecords es : ∀ s s',
  run s es = Some s' → codeRecords s' = default (codeRecords s) (lastFetched es).
Proof.
  induction es as [|e es IH]; intros s s' Hr; cbn in Hr; [by simplify_eq|].
  destruct (step s e) as [s1|] eqn:Hs; [|done].
  rewrite (IH _ _ Hr). cbn [lastFetched].
  destruct (lastFetched es); [done|]. cbn.
  destruct (step_codeRecords _ _ _ Hs) as [(p & o & r & -> & _ & E & _)|(-> & E & _)];
    by cbn.
Qed.

(** C2.  In every execution the record list is the result of the fetch that
    resolved last (the empty initial list while none has), and the list
    only ever changes in a step that resolves a fetch: that step calls the
    setter with the fetched value, and no other step calls the setter or
    changes the list, a scan event included.  The list shown by the view
    is that cell. *)
Theorem records_are_the_last_fetch :
  (∀ es s, run mount es = Some s → codeRecords s = default [] (lastFetched es))
  ∧ (∀ s e s', step s e = Some s' →
       (∃ p o records, e = Resolve p (Fetched records)
           ∧ pending s !! p = Some (AwaitFetch o)
           ∧ codeRecords s' = records
           ∧ trace s' = SetCodeRecords records :: trace s)
       ∨ (fetched e = None
           ∧ codeRecords s' = codeRecords s
           ∧ count is_records_setter (trace s') = count is_records_setter (trace s)))
  ∧ (∀ s scanData s', step s (BarcodeScanned scanData) = Some s' →
       codeRecords s' = codeRecords s)
  ∧ (∀ toString s status records,
       render toString s = ScannerView status records → records = codeRecords s).
Proof.
  split_and!.
  - intros es s Hr. by rewrite (run_codeRecords _ _ _ Hr).
  - apply step_codeRecords.
  - intros s sd s' H. by destruct (step_codeRecords _ _ _ H) as [(?&?&?&?&_)|(_&?&_)].
  - intros f s st r H. unfold render in H. repeat case_match; by simplify_eq.
Qed.

(** ** Copying an item *)

(** C9.  [copyToClipboard] writes the item's content to the clipboard and
    shows the notice, and that is all: the record list, the pending
    promises and every other cell are as before, and no call to the web
    service is made. *)
Theorem copy_only_writes_clipboard (s : Screen) (item : CodeRecord) :
  trace (copyToClipboard item s)
  = AlertAlert "Copiado!" "Texto en portapapeles" :: SetStringAsync (content item) :: trace s
  ∧ codeRecords (copyToClipboard item s) = codeRecords s
  ∧ pending (copyToClipboard item s) = pending s
  ∧ next (copyToClipboard item s) = next s
  ∧ count is_service (trace (copyToClipboard item s)) = count is_service (trace s)
  ∧ count is_records_setter (trace (copyToClipboard item s))
    = count is_records_setter (trace s)
  ∧ (database (copyToClipboard item s), cleanup (copyToClipboard item s),
     currentLocation (copyToClipboard item s), locationError (copyToClipboard item s))
    = (database s, cleanup s, currentLocation s, locationError s)
  ∧ (∀ s', step s (PressCopy item) = Some s' → s' = copyToClipboard item s).
Proof.
  split_and!; try done.
  intros s' H. cbn in H. by case_match; simplify_eq.
Qed.

(** ** The scan flow and the database handle *)

(** C10.  The scan flow never reads [database]: replacing the cell by any
    value [db] (undefined or a handle) changes nothing in what a scan event,
    the resolution of its save or the resolution of its fetch do, and each
    of the two resolutions goes through whatever the state of the screen.
    In particular a scan is saved while the handle is undefined, and a save
    that resolves after teardown closed the handle is still followed by the
    fetch. *)
Theorem scan_flow_ignores_database (s : Screen) (db : option DatabaseHandler) :
  (∀ scanData,
      step (with_database db s) (BarcodeScanned scanData)
      = with_database db <$> step s (BarcodeScanned scanData))
  ∧ (∀ p, pending s !! p = Some AwaitSaveCode →
      step (with_database db s) (Resolve p Saved)
      = with_database db <$> step s (Resolve p Saved)
      ∧ step s (Resolve p Saved)
        = Some (suspend (AwaitFetch AfterScan)
                  (emit (FetchAllCodes AfterScan) (settle p s))))
  ∧ (∀ p records, pending s !! p = Some (AwaitFetch AfterScan) →
      step (with_database db s) (Resolve p (Fetched records))
      = with_database db <$> step s (Resolve p (Fetched records))
      ∧ step s (Resolve p (Fetched records))
        = Some (setCodeRecords records (settle p s)))
  ∧ (∀ scanData, scanning s = true → database s = None →
      ∃ s', step s (BarcodeScanned scanData) = Some s'
        ∧ database s' = None
        ∧ trace s' = SaveCode (data scanData) (type scanData)
                     :: AlertAlert "Código detectado" (data scanData) :: trace s)
  ∧ (∀ handle p, cleanup s = Some handle → pending s !! p = Some AwaitSaveCode →
      trace (unmount s) = CloseConnection handle :: trace s
      ∧ ∃ s', step (unmount s) (Resolve p Saved) = Some s'
          ∧ trace s' = FetchAllCodes AfterScan :: CloseConnection handle :: trace s).
Proof.
  split_and!.
  - intros sd. cbn [step]. change (scanning (with_database db s)) with (scanning s).
    by destruct (scanning s).
  - intros p Hp. rewrite !resume_save by done. done.
  - intros p r Hp. by rewrite !(resume_fetch _ _ AfterScan).
  - intros sd Hs Hd. eexists. split; [cbn [step]; by rewrite Hs|]. done.
  - intros h p Hc Hp.
    assert (E : trace (unmount s) = CloseConnection h :: trace s).
    { unfold unmount, runCleanup. cbn. by rewrite Hc. }
    split; [done|]. eexists. split.
    + apply resume_save. unfold unmount, runCleanup. cbn. by rewrite Hc.
    + cbn [trace suspend emit settle]. by rewrite E.
Qed.

(** ** Teardown and the location flow *)

(** C5.  Teardown puts the liveness flag down, and from then on nothing that
    happens (the permission request or the position fix resolving late, or
    anything else) writes the location error or the coordinates: both cells
    keep the value they had at teardown and neither setter is called. *)
Theorem location_updates_suppressed_after_teardown
    (s s1 s2 : Screen) (es : list Event) :
  step s Unmount = Some s1 →
  run s1 es = Some s2 →
  active s1 = false
  ∧ active s2 = false
  ∧ locationError s2 = locationError s
  ∧ currentLocation s2 = currentLocation s
  ∧ count is_location_setter (trace s2) = count is_location_setter (trace s).
Proof.
  intros Hu Hr.
  pose proof (step_unmount_active _ _ Hu) as Ha.
  destruct (run_inactive_location _ _ _ Hr Ha) as (? & E1 & E2 & E3).
  assert (locationError s1 = locationError s ∧ currentLocation s1 = currentLocation s
          ∧ trace s1 = trace s ∨ ∃ h, locationError s1 = locationError s ∧ currentLocation s1 = currentLocation s
          ∧ trace s1 = CloseConnection h :: trace s) as Hs1.
  { step_cases Hu. unfold_handlers; eauto. }
  destruct Hs1 as [(F1 & F2 & F3)|(h & F1 & F2 & F3)];
    rewrite E1, E2, E3, F1, F2, F3; done.
Qed.

(** The permission request resolves as granted after teardown, and then
    a position arrives for a fix that was requested before teardown. *)
Lemma location_updates_suppressed_after_teardown_witness :
  (∃ s2, run (unmount mount) [Resolve 0 (PermissionsResult GRANTED)] = Some s2
     ∧ locationError s2 = None ∧ currentLocation s2 = None
     ∧ count is_location_setter (trace s2) = 0)
  ∧ (∃ s s2 position,
       run mount [Resolve 0 (PermissionsResult GRANTED)] = Some s
       ∧ run (unmount s) [Resolve 2 (PositionResult position)] = Some s2
       ∧ currentLocation s2 = None
       ∧ count is_location_setter (trace s2) = 0).
Proof.
  split.
  - destruct (run (unmount mount) [Resolve 0 (PermissionsResult GRANTED)])
      as [s2|] eqn:Hr; [|by vm_compute in Hr].
    exists s2. split; [reflexivity|].
    destruct (location_updates_suppressed_after_teardown mount (unmount mount) s2
                [Resolve 0 (PermissionsResult GRANTED)] eq_refl Hr)
      as (_ & _ & H1 & H2 & H3).
    split; [exact H1|]. split; [exact H2|exact H3].
  - eexists _, _, {| coords := {| latitude := 19.5; longitude := -99.25 |} |}.
    split_and!; vm_compute; reflexivity.
Defined.

(** ** Teardown and the other flows *)

(** C6.  Neither [initializeDatabase] nor [handleScanResult] (nor the fetch
    of the effect on [database]) looks at the lifecycle when it resumes: on
    a screen already torn down, a database open that resolves late still
    calls [setDatabase], a save that resolves late is still followed by the
    fetch, and a fetch that resolves late still replaces the record list.
    Such executions exist from the mounted screen. *)
Theorem late_results_applied_after_teardown :
  (∀ s p dbInstance,
      lifecycle s = Unmounted → pending s !! p = Some AwaitConnect →
      ∃ s', step s (Resolve p (Connected dbInstance)) = Some s'
        ∧ database s' = Some dbInstance
        ∧ trace s' = SetDatabase dbInstance :: trace s)
  ∧ (∀ s p,
      lifecycle s = Unmounted → pending s !! p = Some AwaitSaveCode →
      ∃ s', step s (Resolve p Saved) = Some s'
        ∧ trace s' = FetchAllCodes AfterScan :: trace s)
  ∧ (∀ s p o records,
      lifecycle s = Unmounted → pending s !! p = Some (AwaitFetch o) →
      ∃ s', step s (Resolve p (Fetched records)) = Some s'
        ∧ codeRecords s' = records
        ∧ trace s' = SetCodeRecords records :: trace s)
  ∧ (∃ s s', run mount [Unmount] = Some s
        ∧ lifecycle s = Unmounted ∧ database s = None
        ∧ step s (Resolve 1 (Connected 7)) = Some s'
        ∧ database s' = Some 7)
  ∧ (∃ s s' found,
        run mount [CameraPermissionsChange {| granted := true |};
                   BarcodeScanned {| data := "ABC123"; type := "qr" |};
                   Unmount] = Some s
        ∧ lifecycle s = Unmounted ∧ codeRecords s = []
        ∧ run s [Resolve 2 Saved; Resolve 3 (Fetched [found])] = Some s'
        ∧ codeRecords s' = [found]).
Proof.
  split_and!.
  - intros s p db Hl Hp. eexists. split; [by apply resume_connect|].
    unfold setDatabase, mounted. cbn. by rewrite Hl.
  - intros s p Hl Hp. eexists. split; [by apply resume_save|done].
  - intros s p o r Hl Hp. eexists. split; [by eapply resume_fetch|done].
  - eexists _, _. split_and!; vm_compute; reflexivity.
  - eexists _, _, {| id := Some "1"; content := "ABC123"; format := "qr" |}.
    split_and!; vm_compute; reflexivity.
Qed.

(** ** Invariants *)

Ltac lookups :=
  repeat match goal with
  | H : delete _ _ !! _ = Some _ |- _ => apply lookup_delete_Some in H as [? ?]
  | H : <[_:=_]> _ !! _ = Some _ |- _ =>
      apply lookup_insert_Some in H as [[? ?]|[? ?]]; simplify_eq
  | H : ∅ !! _ = Some _ |- _ => by rewrite lookup_empty in H
  end.

Ltac inv_split := cbn in *; repeat first [split | intro]; lookups.

(** Instantiates the clauses of an invariant at what is known to be pending
    and at the cells that are known to be set. *)
Ltac learn_from I :=
  repeat match goal with
  | H : pending _ !! _ = Some _ |- _ => learn_hyp (I _ H)
  | H : pending _ !! _ = Some _, H' : pending _ !! _ = Some _ |- _ =>
      learn_hyp (I _ _ H H')
  | H : locationError _ = Some _ |- _ => learn_hyp (I _ H)
  | H : currentLocation _ = Some _ |- _ => learn_hyp (I _ H)
  | H : database _ = None |- _ => learn_hyp (I H)
  | H : lifecycle _ = _ |- _ => learn_hyp (I H)
  end.

Ltac inv_finish :=
  destruct_and?; simplify_eq;
  try match goal with H : ∀ q, pending _ !! q ≠ Some _ |- _ => by eapply H end;
  try done; try congruence; try lia;
  eauto using list_elem_of_further, list_elem_of_here.

Lemma mount_LocationInv : LocationInv mount.
Proof. split; inv_split; try done. Qed.

Lemma LocationInv_emit c s :
  location_call c = false → LocationInv s → LocationInv (emit c s).
Proof.
  intros Hc [I1 I2 I3 I4 I5 I6 I7].
  split; inv_split; learn_from I1; learn_from I2; learn_from I3; learn_from I4;
    learn_from I5; learn_from I6; destruct c; inv_finish.
Qed.

Lemma LocationInv_suspend k s :
  location_await k = false → LocationInv s → LocationInv (suspend k s).
Proof.
  intros Hk [I1 I2 I3 I4 I5 I6 I7].
  split; inv_split; learn_from I1; learn_from I2; learn_from I3; learn_from I4;
    learn_from I5; learn_from I6; inv_finish.
Qed.

Lemma LocationInv_settle p s : LocationInv s → LocationInv (settle p s).
Proof.
  intros [I1 I2 I3 I4 I5 I6 I7].
  split; inv_split; learn_from I1; learn_from I2; learn_from I3; learn_from I4;
    learn_from I5; learn_from I6; inv_finish.
Qed.

Lemma LocationInv_frame s s' :
  pending s' = pending s → locationError s' = locationError s →
  currentLocation s' = currentLocation s → trace s' = trace s →
  LocationInv s → LocationInv s'.
Proof.
  intros E1 E2 E3 E4 [I1 I2 I3 I4 I5 I6 I7].
  split; rewrite ?E1, ?E2, ?E3, ?E4; done.
Qed.

Ltac learn_location I1 I2 I3 I4 I5 I6 :=
  learn_from I1; learn_from I2; learn_from I3; learn_from I4;
  learn_from I5; learn_from I6.

Lemma LocationInv_denied s p :
  pending s !! p = Some AwaitPermissions → LocationInv s →
  LocationInv (setLocationError permissionDenied (settle p s)).
Proof.
  intros Hp [I1 I2 I3 I4 I5 I6 I7].
  split; inv_split; learn_location I1 I2 I3 I4 I5 I6; inv_finish.
Qed.

Lemma LocationInv_granted s p :
  pending s !! p = Some AwaitPermissions → LocationInv s →
  LocationInv (suspend AwaitPosition (emit GetCurrentPositionAsync (settle p s))).
Proof.
  intros Hp [I1 I2 I3 I4 I5 I6 I7].
  split; inv_split; learn_location I1 I2 I3 I4 I5 I6; inv_finish.
Qed.

Lemma LocationInv_position s p position :
  pending s !! p = Some AwaitPosition → LocationInv s →
  LocationInv (setCurrentLocation position (settle p s)).
Proof.
  intros Hp [I1 I2 I3 I4 I5 I6 I7].
  split; inv_split; learn_location I1 I2 I3 I4 I5 I6; inv_finish.
Qed.

Lemma LocationInv_runCleanup s : LocationInv s → LocationInv (runCleanup s).
Proof.
  intros I. unfold runCleanup. destruct (cleanup s); [|done].
  eapply LocationInv_frame, LocationInv_emit, I; done.
Qed.

Lemma LocationInv_databaseEffect s : LocationInv s → LocationInv (databaseEffect s).
Proof.
  intros I. unfold databaseEffect. apply LocationInv_runCleanup in I.
  destruct (database (runCleanup s)); [|done].
  eapply LocationInv_frame; [..|apply LocationInv_suspend, LocationInv_emit, I]; done.
Qed.

Lemma LocationInv_setDatabase s dbInstance :
  LocationInv s → LocationInv (setDatabase dbInstance s).
Proof.
  intros I. unfold setDatabase.
  assert (LocationInv (with_database (Some dbInstance) (emit (SetDatabase dbInstance) s))).
  { eapply LocationInv_frame, LocationInv_emit, I; done. }
  case_match; [by apply LocationInv_databaseEffect|done].
Qed.

Lemma step_LocationInv s e s' :
  step s e = Some s' → LocationInv s → LocationInv s'.
Proof.
  intros H I. step_cases H.
  - by eapply LocationInv_frame, I.
  - by apply LocationInv_suspend, LocationInv_emit, LocationInv_emit.
  - by apply LocationInv_emit, LocationInv_emit.
  - by apply LocationInv_settle.
  - by apply LocationInv_denied.
  - by apply LocationInv_granted.
  - by apply LocationInv_position.
  - by apply LocationInv_settle.
  - by apply LocationInv_setDatabase, LocationInv_settle.
  - by apply LocationInv_suspend, LocationInv_emit, LocationInv_settle.
  - eapply LocationInv_frame, LocationInv_emit, LocationInv_settle, I; done.
  - by apply LocationInv_settle.
  - by apply LocationInv_settle.
  - by apply LocationInv_settle.
  - by apply LocationInv_settle.
  - by apply LocationInv_settle.
  - unfold unmount. eapply LocationInv_frame; [..|apply LocationInv_runCleanup]; [done..|].
    by eapply LocationInv_frame, I.
Qed.

Lemma reachable_LocationInv s : reachable s → LocationInv s.
Proof.
  intros [es Hr]. revert s Hr.
  assert (∀ s0 s, LocationInv s0 → run s0 es = Some s → LocationInv s) as G.
  { induction es as [|e es IH]; intros s0 s I Hr; cbn in Hr; [by simplify_eq|].
    destruct (step s0 e) eqn:Hs; [|done]. eauto using step_LocationInv. }
  intros s. apply G, mount_LocationInv.
Qed.

(** *** The database flow *)

Ltac learn_database I1 I2 I3 I4 I6 :=
  learn_from I1; learn_from I2; learn_from I3; learn_from I6;
  try match goal with H : lifecycle _ = Mounted |- _ => learn_hyp (I4 H) end.

Lemma mount_DatabaseInv : DatabaseInv mount.
Proof. split; inv_split; try done. lia. Qed.

Lemma DatabaseInv_emit c s :
  database_call c = false → DatabaseInv s → DatabaseInv (emit c s).
Proof.
  intros Hc [I1 I2 I3 I4 I5 I6].
  split; inv_split; learn_database I1 I2 I3 I4 I6;
    destruct c as [| |[]| | | | | | | | |]; inv_finish.
Qed.

Lemma DatabaseInv_suspend k s :
  k ≠ AwaitConnect → DatabaseInv s → DatabaseInv (suspend k s).
Proof.
  intros Hk [I1 I2 I3 I4 I5 I6].
  split; inv_split; learn_database I1 I2 I3 I4 I6; inv_finish.
Qed.

Lemma DatabaseInv_settle p s : DatabaseInv s → DatabaseInv (settle p s).
Proof.
  intros [I1 I2 I3 I4 I5 I6].
  split; inv_split; learn_database I1 I2 I3 I4 I6; inv_finish.
Qed.

Lemma DatabaseInv_frame s s' :
  pending s' = pending s → database s' = database s → cleanup s' = cleanup s →
  lifecycle s' = lifecycle s → active s' = active s → trace s' = trace s →
  DatabaseInv s → DatabaseInv s'.
Proof.
  intros E1 E2 E3 E4 E5 E6 [I1 I2 I3 I4 I5 I6].
  split; rewrite ?E1, ?E2, ?E3, ?E4, ?E5, ?E6; done.
Qed.

Lemma DatabaseInv_setDatabase s p dbInstance :
  pending s !! p = Some AwaitConnect → DatabaseInv s →
  DatabaseInv (setDatabase dbInstance (settle p s)).
Proof.
  intros Hp [I1 I2 I3 I4 I5 I6].
  destruct (I1 p Hp) as [-> Hd]. destruct (I2 Hd) as (Hc & Hf & Hcl).
  unfold setDatabase, databaseEffect, runCleanup, mounted. cbn.
  rewrite Hd, Hc, bool_decide_false by done. cbn.
  destruct (lifecycle s) eqn:Hl; cbn.
  - destruct (I3 eq_refl) as (_ & _ & Ha).
    split; inv_split; learn_from I1; inv_finish.
  - destruct (I6 eq_refl) as (_ & Ha).
    split; inv_split; learn_from I1; inv_finish.
Qed.

Lemma DatabaseInv_unmount s :
  lifecycle s = Mounted → DatabaseInv s → DatabaseInv (unmount s).
Proof.
  intros Hl [I1 I2 I3 I4 I5 I6].
  destruct (I3 Hl) as (Hc & Hcl & Ha).
  unfold unmount, runCleanup. cbn. rewrite Hc.
  destruct (database s) eqn:Hd; cbn.
  - split; inv_split; learn_from I1; inv_finish.
  - destruct (I2 eq_refl) as (_ & ? & ?).
    split; inv_split; learn_from I1; inv_finish.
Qed.

Lemma mounted_true s : mounted s = true → lifecycle s = Mounted.
Proof. unfold mounted. by destruct (lifecycle s). Qed.

Lemma step_DatabaseInv s e s' :
  step s e = Some s' → DatabaseInv s → DatabaseInv s'.
Proof.
  intros H I. step_cases H.
  - by eapply DatabaseInv_frame, I.
  - by apply DatabaseInv_suspend, DatabaseInv_emit, DatabaseInv_emit.
  - by apply DatabaseInv_emit, DatabaseInv_emit.
  - by apply DatabaseInv_settle.
  - eapply DatabaseInv_frame, DatabaseInv_emit, DatabaseInv_settle, I; done.
  - by apply DatabaseInv_suspend, DatabaseInv_emit, DatabaseInv_settle.
  - eapply DatabaseInv_frame, DatabaseInv_emit, DatabaseInv_settle, I; done.
  - by apply DatabaseInv_settle.
  - by apply DatabaseInv_setDatabase.
  - by apply DatabaseInv_suspend, DatabaseInv_emit, DatabaseInv_settle.
  - eapply DatabaseInv_frame, DatabaseInv_emit, DatabaseInv_settle, I; done.
  - by apply DatabaseInv_settle.
  - by apply DatabaseInv_settle.
  - by apply DatabaseInv_settle.
  - by apply DatabaseInv_settle.
  - by apply DatabaseInv_settle.
  - by apply DatabaseInv_unmount; [apply mounted_true|].
Qed.

Lemma reachable_DatabaseInv s : reachable s → DatabaseInv s.
Proof.
  intros [es Hr]. revert s Hr.
  assert (∀ s0 s, DatabaseInv s0 → run s0 es = Some s → DatabaseInv s) as G.
  { induction es as [|e es IH]; intros s0 s I Hr; cbn in Hr; [by simplify_eq|].
    destruct (step s0 e) eqn:Hs; [|done]. eauto using step_DatabaseInv. }
  intros s. apply G, mount_DatabaseInv.
Qed.

(** *** Promise ids

    A new promise never takes the id of one that is still pending. *)

Lemma step_FreshIds s e s' : step s e = Some s' → FreshIds s → FreshIds s'.
Proof.
  intros H [I1 I2]. step_cases H; unfold_handlers.
  all: split; cbn; [lia|]; intros q Hq.
  all: rewrite ?lookup_insert_ne by lia;
    try (apply lookup_delete_None; right); apply I2; lia.
Qed.

Lemma reachable_FreshIds s : reachable s → FreshIds s.
Proof.
  intros [es Hr]. revert s Hr.
  assert (∀ s0 s, FreshIds s0 → run s0 es = Some s → FreshIds s) as G.
  { induction es as [|e es IH]; intros s0 s I Hr; cbn in Hr; [by simplify_eq|].
    destruct (step s0 e) eqn:Hs; [|done]. eauto using step_FreshIds. }
  intros s. apply G. split; cbn; [lia|]. intros p Hp.
  rewrite !lookup_insert_ne by lia. apply lookup_empty.
Qed.

(** ** The effect on [database] *)

(** After teardown no step closes a handle or runs the effect. *)
Lemma step_unmounted s e s' :
  step s e = Some s' → lifecycle s = Unmounted →
  lifecycle s' = Unmounted
  ∧ count is_close (trace s') = count is_close (trace s)
  ∧ count (is_fetch OnDatabaseReady) (trace s')
    = count (is_fetch OnDatabaseReady) (trace s).
Proof.
  intros H Hl. step_cases H.
  all: unfold scanning, unmount, setDatabase, mounted in *; cbn in *;
    rewrite ?Hl in *; cbn in *; simplify_eq; done.
Qed.

Lemma run_unmounted es : ∀ s s',
  run s es = Some s' → lifecycle s = Unmounted →
  lifecycle s' = Unmounted
  ∧ count is_close (trace s') = count is_close (trace s)
  ∧ count (is_fetch OnDatabaseReady) (trace s')
    = count (is_fetch OnDatabaseReady) (trace s).
Proof.
  induction es as [|e es IH]; intros s s' Hr Hl; cbn in Hr; [by simplify_eq|].
  destruct (step s e) as [s1|] eqn:Hs; [|done].
  destruct (step_unmounted _ _ _ Hs Hl) as (Hl1 & <- & <-). by apply IH.
Qed.

Lemma step_trace_extends s e s' :
  step s e = Some s' → ∃ new, trace s' = (new ++ trace s)%list.
Proof.
  intros H. step_cases H; unfold_handlers.
  all: first [by exists [] | by eexists [_] | by eexists [_; _] | by eexists [_; _; _]].
Qed.

Lemma run_trace_extends es : ∀ s s',
  run s es = Some s' → ∃ new, trace s' = (new ++ trace s)%list.
Proof.
  induction es as [|e es IH]; intros s s' Hr; cbn in Hr.
  - simplify_eq. by exists [].
  - destruct (step s e) as [s1|] eqn:Hs; [|done].
    destruct (step_trace_extends _ _ _ Hs) as [n1 E1].
    destruct (IH _ _ Hr) as [n2 E2].
    exists (n2 ++ n1)%list. by rewrite E2, E1, app_assoc.
Qed.

(** What the open does when it resolves on a mounted screen that has no
    handle yet: the effect runs once, with one fetch. *)
Lemma connect_on_mounted s p dbInstance :
  lifecycle s = Mounted → database s = None → cleanup s = None →
  setDatabase dbInstance (settle p s)
  = with_cleanup (Some dbInstance)
      (suspend (AwaitFetch OnDatabaseReady)
         (emit (FetchAllCodes OnDatabaseReady)
            (with_database (Some dbInstance)
               (emit (SetDatabase dbInstance) (settle p s))))).
Proof.
  intros Hl Hd Hc. unfold setDatabase, databaseEffect, runCleanup, mounted. cbn.
  by rewrite Hl, Hd, Hc, bool_decide_false.
Qed.

(** X9.  While [database] is undefined no initial fetch has been issued,
    and the effect on [database] does nothing when it finds it undefined.
    When the effect finds a handle it issues one fetch of all records and
    waits for it.  The effect is run by the render that follows the open:
    when the open resolves on the mounted screen, [database] becomes
    defined and exactly one fetch is issued, in that very step; a mounted
    screen with a handle has issued exactly one initial fetch, and no
    screen ever issues more than one.  When that fetch resolves, its result
    becomes the record list. *)
Theorem initial_fetch_once_database_defined (s : Screen) :
  reachable s →
  (database s = None →
     count (is_fetch OnDatabaseReady) (trace s) = 0 ∧ databaseEffect s = s)
  ∧ (∀ handle, database s = Some handle →
     trace (databaseEffect s) = FetchAllCodes OnDatabaseReady :: trace (runCleanup s)
     ∧ pending (databaseEffect s) !! next s = Some (AwaitFetch OnDatabaseReady))
  ∧ (count (is_fetch OnDatabaseReady) (trace s) ≤ 1)%nat
  ∧ (lifecycle s = Mounted → database s ≠ None →
     count (is_fetch OnDatabaseReady) (trace s) = 1)
  ∧ (∀ p dbInstance,
       lifecycle s = Mounted → pending s !! p = Some AwaitConnect →
       database s = None
       ∧ ∃ s', step s (Resolve p (Connected dbInstance)) = Some s'
           ∧ database s' = Some dbInstance
           ∧ trace s' = FetchAllCodes OnDatabaseReady :: SetDatabase dbInstance :: trace s
           ∧ count (is_fetch OnDatabaseReady) (trace s') = 1
           ∧ pending s' !! next s = Some (AwaitFetch OnDatabaseReady))
  ∧ (∀ p records,
       pending s !! p = Some (AwaitFetch OnDatabaseReady) →
       ∃ s', step s (Resolve p (Fetched records)) = Some s'
           ∧ codeRecords s' = records
           ∧ trace s' = SetCodeRecords records :: trace s).
Proof.
  intros Hr. destruct (reachable_DatabaseInv _ Hr) as [I1 I2 I3 I4 I5 I6].
  split_and!; try done.
  - intros Hd. destruct (I2 Hd) as (Hc & Hf & _). split; [done|].
    unfold databaseEffect, runCleanup. rewrite Hc. by rewrite Hd.
  - intros h Hd. unfold databaseEffect.
    assert (database (runCleanup s) = Some h ∧ next (runCleanup s) = next s)
      as [-> E] by (unfold runCleanup; by destruct (cleanup s)).
    cbn. rewrite E. split; [done|apply lookup_insert_eq].
  - intros p db Hl Hp. destruct (I1 p Hp) as [-> Hd].
    destruct (I2 Hd) as (Hc & Hf & _). split; [done|].
    eexists. split; [by apply resume_connect|].
    rewrite connect_on_mounted by done. cbn. rewrite Hf.
    split_and!; try done. apply lookup_insert_eq.
  - intros p r Hp. eexists. split; [by eapply resume_fetch|done].
Qed.

Lemma initial_fetch_once_database_defined_witness :
  count (is_fetch OnDatabaseReady) (trace mount) = 0
  ∧ ∃ s', step mount (Resolve 1 (Connected 7)) = Some s'
      ∧ database s' = Some 7
      ∧ trace s' = [FetchAllCodes OnDatabaseReady; SetDatabase 7;
                    ConnectDatabase; RequestForegroundPermissionsAsync]
      ∧ pending s' !! 2 = Some (AwaitFetch OnDatabaseReady).
Proof.
  destruct (initial_fetch_once_database_defined mount (ex_intro _ [] eq_refl))
    as (H1 & _ & _ & _ & H4 & _).
  split; [exact (proj1 (H1 eq_refl))|].
  destruct (H4 1 7 eq_refl eq_refl) as (_ & s' & E1 & E2 & E3 & _ & E5).
  exists s'. split; [exact E1|]. split; [exact E2|]. split; [exact E3|exact E5].
Defined.


(** ** Closing the handle *)

(** X10.  When the open has resolved on a mounted screen, the
    handle is closed exactly once and by teardown: no close is made while
    the screen is mounted, the teardown step makes the one call
    [closeConnection] on the handle, and nothing that happens afterwards
    makes another.  Nothing is asked about the fetch: it may have resolved,
    been rejected or still be pending. *)
Theorem close_once_at_teardown
    (s s' : Screen) (handle : DatabaseHandler) (es : list Event) :
  reachable s → lifecycle s = Mounted → database s = Some handle →
  run s (Unmount :: es) = Some s' →
  count is_close (trace s) = 0
  ∧ step s Unmount = Some (unmount s)
  ∧ trace (unmount s) = CloseConnection handle :: trace s
  ∧ run (unmount s) es = Some s'
  ∧ count is_close (trace s') = 1
  ∧ CloseConnection handle ∈ trace s'.
Proof.
  intros Hr Hl Hd Hrun.
  destruct (reachable_DatabaseInv _ Hr) as [_ _ I3 _ _ _].
  destruct (I3 Hl) as (Hc & Hcl & _). rewrite Hd in Hc.
  assert (Hu : step s Unmount = Some (unmount s)).
  { cbn. unfold mounted. by rewrite Hl. }
  assert (Ht : trace (unmount s) = CloseConnection handle :: trace s).
  { unfold unmount, runCleanup. cbn. by rewrite Hc. }
  cbn [run] in Hrun. rewrite Hu in Hrun.
  destruct (run_unmounted _ _ _ Hrun eq_refl) as (_ & E & _).
  destruct (run_trace_extends _ _ _ Hrun) as [new Enew].
  split_and!; try done.
  - rewrite E, Ht. cbn. by rewrite Hcl.
  - rewrite Enew, Ht. apply elem_of_app. right. apply list_elem_of_here.
Qed.

(** The handle arrives, its fetch is still pending at teardown and resolves
    afterwards. *)
Lemma close_once_at_teardown_witness :
  ∃ s s', run mount [Resolve 1 (Connected 7)] = Some s
    ∧ run s [Unmount; Resolve 2 (Fetched [])] = Some s'
    ∧ count is_close (trace s) = 0
    ∧ count is_close (trace s') = 1
    ∧ CloseConnection 7 ∈ trace s'.
Proof.
  destruct (run mount [Resolve 1 (Connected 7)]) as [s|] eqn:Hs;
    [|by vm_compute in Hs].
  destruct (run s [Unmount; Resolve 2 (Fetched [])]) as [s'|] eqn:Hs';
    [|vm_compute in Hs; simplify_eq; by vm_compute in Hs'].
  exists s, s'. split; [reflexivity|]. split; [exact Hs'|].
  assert (lifecycle s = Mounted ∧ database s = Some 7) as [Hl Hd]
    by (vm_compute in Hs; simplify_eq; done).
  destruct (close_once_at_teardown s s' 7 [Resolve 2 (Fetched [])]
              (ex_intro _ _ Hs) Hl Hd Hs')
    as (H1 & _ & _ & _ & H2 & H3).
  split; [exact H1|]. split; [exact H2|exact H3].
Defined.

(** C4.  The open resolves after teardown.  The cleanup that closes the
    handle is the one the effect on [database] returns, and that effect has
    run once, at mount, with [database] undefined; line 51 still passes the
    handle to [setDatabase], with no look at [active] and no close.  The
    open has completed and the handle is never closed, at teardown or at
    any time after, where one close is due. *)
Lemma late_handle_is_never_closed :
  ∃ s, run mount [Unmount; Resolve 1 (Connected 7)] = Some s
    ∧ database s = Some 7
    ∧ trace s = [SetDatabase 7; ConnectDatabase; RequestForegroundPermissionsAsync]
    ∧ count is_close (trace s) = 0
    ∧ ∀ es s', run s es = Some s' → count is_close (trace s') = 0.
Proof.
  eexists. split; [vm_compute; reflexivity|]. split_and!; try done.
  intros es s' Hr. by destruct (run_unmounted _ _ _ Hr eq_refl) as (_ & -> & _).
Qed.

(** ** The status line *)

Lemma forms_exclusive toString text :
  ¬ (acquiringForm text ∧ errorForm text)
  ∧ ¬ (acquiringForm text ∧ coordinatesForm toString text)
  ∧ ¬ (errorForm text ∧ coordinatesForm toString text).
Proof.
  unfold acquiringForm, errorForm, coordinatesForm.
  split_and!; intros [H1 H2].
  - destruct H2 as (m & _ & ->). discriminate.
  - destruct H2 as (a & b & ->). discriminate.
  - destruct H1 as (m & _ & ->). destruct H2 as (a & b & H). discriminate.
Qed.

(** C7.  Whatever the two location cells hold, the status line has exactly
    one of the three forms: the acquiring message, "Error: " followed by a
    message, or "Ubicación: " followed by latitude and longitude; no text
    has two of the forms.  In a reachable state the cells are never both
    set: either the error cell holds the fixed message, written by the
    denial, and the line is the error form; or the coordinates cell holds a
    fix, written when the position arrived, and the line shows its latitude
    and longitude; or neither is set and the line is the acquiring
    message. *)
Theorem location_status_one_of_three (toString : float → string) :
  (∀ locationError currentLocation,
     let text := locationStatus toString locationError currentLocation in
     (acquiringForm text ∧ ¬ errorForm text ∧ ¬ coordinatesForm toString text)
     ∨ (errorForm text ∧ ¬ acquiringForm text ∧ ¬ coordinatesForm toString text)
     ∨ (coordinatesForm toString text ∧ ¬ acquiringForm text ∧ ¬ errorForm text))
  ∧ (∀ s, reachable s →
     let text := locationStatus toString (locationError s) (currentLocation s) in
     (locationError s = None ∧ currentLocation s = None
        ∧ text = "Obteniendo ubicación...")
     ∨ (locationError s = Some permissionDenied ∧ currentLocation s = None
        ∧ SetLocationError permissionDenied ∈ trace s
        ∧ text = "Error: " +:+ permissionDenied)
     ∨ (locationError s = None
        ∧ ∃ l, currentLocation s = Some l
           ∧ SetCurrentLocation l ∈ trace s
           ∧ text = "Ubicación: " +:+ toString (latitude (coords l)) +:+ ", "
                      +:+ toString (longitude (coords l)))).
Proof.
  split.
  - intros e l text.
    destruct (forms_exclusive toString text) as (X1 & X2 & X3).
    assert (acquiringForm text ∨ errorForm text ∨ coordinatesForm toString text)
      as [F|[F|F]]; [|naive_solver..].
    subst text. unfold locationStatus.
    destruct e as [[|c m]|]; cbn.
    + destruct l; [right; right; by eexists _, _|by left].
    + right; left. by exists (String c m).
    + destruct l; [right; right; by eexists _, _|by left].
  - intros s Hr text. destruct (reachable_LocationInv _ Hr) as [_ _ _ _ I5 I6 _].
    subst text. destruct (locationError s) as [m|] eqn:He.
    + destruct (I5 m eq_refl) as (-> & Hl & _ & Hin).
      right; left. by rewrite Hl.
    + destruct (currentLocation s) as [l|] eqn:Hl; [|by left].
      right; right. split; [done|]. exists l. split_and!; eauto.
Qed.

(** ** A denied permission *)

(** Once the location flow has nothing to wait for, no step gives it
    anything, and its cells and calls stay as they are. *)
Lemma step_location_settled s e s' :
  step s e = Some s' → location_settled s →
  location_settled s'
  ∧ locationError s' = locationError s
  ∧ currentLocation s' = currentLocation s
  ∧ count is_position_query (trace s') = count is_position_query (trace s)
  ∧ count is_permission_request (trace s') = count is_permission_request (trace s).
Proof.
  intros H Hq. unfold location_settled in *.
  step_cases H;
    try match goal with
    | Hp : pending s !! _ = Some AwaitPermissions |- _ => by apply Hq in Hp
    | Hp : pending s !! _ = Some AwaitPosition |- _ => by apply Hq in Hp
    end.
  all: unfold_handlers; split_and!; try done.
  all: intros q k Hk; cbn in Hk; lookups; eauto.
Qed.

Lemma run_location_settled es : ∀ s s',
  run s es = Some s' → location_settled s →
  location_settled s'
  ∧ locationError s' = locationError s
  ∧ currentLocation s' = currentLocation s
  ∧ count is_position_query (trace s') = count is_position_query (trace s)
  ∧ count is_permission_request (trace s') = count is_permission_request (trace s).
Proof.
  induction es as [|e es IH]; intros s s' Hr Hq; cbn in Hr; [by simplify_eq|].
  destruct (step s e) as [s1|] eqn:Hs; [|done].
  destruct (step_location_settled _ _ _ Hs Hq) as (Hq1 & <- & <- & <- & <-).
  by apply IH.
Qed.

(** C8 (as amended).  When the permission request resolves with a status
    other than granted, the position is never asked for, the coordinates
    stay unset for the rest of the session, and the permission is never
    requested again; if the screen is still active at that moment, the
    error cell is set to the fixed message, in that step, and keeps it. *)
Theorem denied_permission_is_final
    (s s1 s2 : Screen) (p : nat) (status : PermissionStatus) (es : list Event) :
  reachable s →
  pending s !! p = Some AwaitPermissions →
  status ≠ GRANTED →
  step s (Resolve p (PermissionsResult status)) = Some s1 →
  run s1 es = Some s2 →
  (active s = true →
     trace s1 = SetLocationError permissionDenied :: trace s
     ∧ locationError s1 = Some permissionDenied
     ∧ locationError s2 = Some permissionDenied)
  ∧ currentLocation s2 = None
  ∧ count is_position_query (trace s2) = 0
  ∧ count is_permission_request (trace s2) = 1
  ∧ location_settled s2.
Proof.
  intros Hr Hp Hst Hs Hrun.
  destruct (reachable_LocationInv _ Hr) as [I1 I2 I3 I4 I5 I6 I7].
  destruct (I2 p Hp) as (He & Hl & Hc & Hno).
  assert (Hq : location_settled s1 ∧ currentLocation s1 = None
               ∧ count is_position_query (trace s1) = 0
               ∧ count is_permission_request (trace s1) = 1
               ∧ (active s = true →
                    trace s1 = SetLocationError permissionDenied :: trace s
                    ∧ locationError s1 = Some permissionDenied)).
  { cbn in Hs. rewrite Hp in Hs. cbn in Hs.
    rewrite (bool_decide_false (status = GRANTED)) in Hs by done.
    assert (location_settled (settle p s)) as Hset.
    { intros q k Hk. cbn in Hk. lookups. destruct k; try done.
      - learn_from I1. simplify_eq.
      - by destruct (Hno q). }
    destruct (active s); cbn in Hs; simplify_eq; by split_and!. }
  destruct Hq as (Hq & Hl1 & Hc1 & Hr1 & Ha).
  destruct (run_location_settled _ _ _ Hrun Hq) as (Hq2 & E1 & E2 & E3 & E4).
  split_and!; try congruence; try done.
  intros Hact. destruct (Ha Hact) as [? ?]. split_and!; congruence.
Qed.

Lemma denied_permission_is_final_witness :
  ∃ s1 s2,
    step mount (Resolve 0 (PermissionsResult DENIED)) = Some s1
    ∧ run s1 [Resolve 1 (Connected 7); Unmount] = Some s2
    ∧ locationError s2 = Some permissionDenied
    ∧ currentLocation s2 = None
    ∧ count is_position_query (trace s2) = 0
    ∧ count is_permission_request (trace s2) = 1.
Proof.
  destruct (step mount (Resolve 0 (PermissionsResult DENIED))) as [s1|] eqn:Hs;
    [|by vm_compute in Hs].
  destruct (run s1 [Resolve 1 (Connected 7); Unmount]) as [s2|] eqn:Hs2;
    [|vm_compute in Hs; simplify_eq; by vm_compute in Hs2].
  exists s1, s2. split; [reflexivity|]. split; [exact Hs2|].
  assert (DENIED ≠ GRANTED) as Hne by discriminate.
  destruct (denied_permission_is_final mount s1 s2 0 DENIED _
              (ex_intro _ [] eq_refl) eq_refl Hne Hs Hs2)
    as (H1 & H2 & H3 & H4 & _).
  destruct (H1 eq_refl) as (_ & _ & H5).
  split; [exact H5|]. split; [exact H2|]. split; [exact H3|exact H4].
Defined.

(** C8, without the condition that the screen is active when the request
    resolves: the denial arrives after teardown, the error cell stays unset
    and its setter is never called. *)
Lemma late_denial_sets_no_error :
  ∃ s, run mount [Unmount; Resolve 0 (PermissionsResult DENIED)] = Some s
    ∧ locationError s = None
    ∧ trace s = [ConnectDatabase; RequestForegroundPermissionsAsync]
    ∧ ∀ es s', run s es = Some s' → locationError s' = None.
Proof.
  eexists. split; [vm_compute; reflexivity|]. split_and!; try done.
  intros es s' Hr.
  by destruct (run_inactive_location _ _ _ Hr eq_refl) as (_ & -> & _).
Qed.

(** * Further properties of the screen *)

Lemma reachable_step s e s' : reachable s → step s e = Some s' → reachable s'.
Proof.
  intros [es Hr] Hs. exists (es ++ [e])%list.
  revert Hr. generalize mount. induction es as [|e0 es IH]; intros s0 Hr; cbn in *.
  - simplify_eq. by rewrite Hs.
  - destruct (step s0 e0); [by apply IH|done].
Qed.

Lemma reachable_run s es s' : reachable s → run s es = Some s' → reachable s'.
Proof.
  revert s. induction es as [|e es IH]; intros s Hr Hrun; cbn in Hrun.
  - by simplify_eq.
  - destruct (step s e) eqn:Hs; [|done]. eauto using reachable_step.
Qed.

(** ** The bootstrap calls *)

Lemma step_BootstrapInv s e s' :
  step s e = Some s' → LocationInv s → DatabaseInv s →
  BootstrapInv s → BootstrapInv s'.
Proof.
  intros H [L1 L2 _ _ _ _ _] [D1 D2 D3 _ _ D6] [B1 B2 B3 B4 B5].
  step_cases H;
    try match goal with
    | Hp : pending s !! _ = Some AwaitPermissions |- _ =>
        destruct (L2 _ Hp) as (_ & _ & ? & _)
    | Hp : pending s !! _ = Some AwaitConnect |- _ =>
        destruct (D1 _ Hp) as (_ & Hd); pose proof (B3 Hd);
        destruct (D2 Hd) as (? & _ & ?)
    | Hm : mounted s = true |- _ =>
        destruct (D3 (mounted_true _ Hm)) as (_ & ? & _)
    end.
  all: unfold_handlers; split; cbn; intros; simplify_eq; try done; try lia; auto.
Qed.

Lemma run_BootstrapInv es : ∀ s s',
  reachable s → BootstrapInv s → run s es = Some s' → BootstrapInv s'.
Proof.
  induction es as [|e es IH]; intros s s' R I Hrun; cbn in Hrun; [by simplify_eq|].
  destruct (step s e) eqn:Hs; [|done].
  eapply IH; [by eapply reachable_step| |done].
  eauto using step_BootstrapInv, reachable_LocationInv, reachable_DatabaseInv.
Qed.

Lemma reachable_BootstrapInv s : reachable s → BootstrapInv s.
Proof.
  intros [es Hr]. eapply run_BootstrapInv; [by exists []| |done].
  split; cbn; intros; try done; lia.
Qed.

(** X1.  In every reachable state the location permission has been
    requested exactly once and the database open started exactly once, in
    that order and before any other call; the position has been asked for
    at most once, [setDatabase] called at most once and a handle closed at
    most once. *)
Theorem bootstrap_calls_made_once (s : Screen) :
  reachable s →
  count is_permission_request (trace s) = 1
  ∧ count is_connect (trace s) = 1
  ∧ (count is_position_query (trace s) ≤ 1)%nat
  ∧ (count is_set_database (trace s) ≤ 1)%nat
  ∧ (count is_close (trace s) ≤ 1)%nat
  ∧ ∃ later, trace s = (later ++ [ConnectDatabase; RequestForegroundPermissionsAsync])%list.
Proof.
  intros Hr. destruct (reachable_BootstrapInv _ Hr) as [B1 B2 _ B4 B5].
  destruct (reachable_LocationInv _ Hr) as [_ _ _ _ _ _ L7].
  split_and!; try done.
  destruct Hr as [es Hr]. by destruct (run_trace_extends _ _ _ Hr) as [new ->]; exists new.
Qed.

Lemma bootstrap_calls_made_once_witness :
  ∃ s, run mount [Resolve 0 (PermissionsResult GRANTED); Resolve 1 (Connected 7);
                  Unmount] = Some s
    ∧ count is_permission_request (trace s) = 1
    ∧ count is_connect (trace s) = 1
    ∧ (count is_position_query (trace s) ≤ 1)%nat
    ∧ (count is_close (trace s) ≤ 1)%nat.
Proof.
  destruct (run mount [Resolve 0 (PermissionsResult GRANTED); Resolve 1 (Connected 7);
                       Unmount]) as [s|] eqn:Hs; [|by vm_compute in Hs].
  exists s. split; [reflexivity|].
  destruct (bootstrap_calls_made_once s (ex_intro _ _ Hs)) as (H1 & H2 & H3 & _ & H5 & _).
  split; [exact H1|]. split; [exact H2|]. split; [exact H3|exact H5].
Defined.

(** ** The handle that is closed *)

Ltac in_trace :=
  repeat match goal with
  | H : _ ∈ _ :: _ |- _ => apply elem_of_cons in H as [?|?]; simplify_eq
  end.

Lemma step_HandleInv s e s' :
  step s e = Some s' → DatabaseInv s → HandleInv s → HandleInv s'.
Proof.
  intros H [D1 D2 D3 _ _ D6] [A1 A2].
  step_cases H;
    try match goal with
    | Hp : pending s !! _ = Some AwaitConnect |- _ =>
        destruct (D1 _ Hp) as (_ & Hd)
    | Hm : mounted s = true |- _ =>
        destruct (D3 (mounted_true _ Hm)) as (Hc & _ & _)
    end.
  all: unfold_handlers; split; cbn; intros; in_trace; simplify_eq;
    eauto using list_elem_of_further, list_elem_of_here.
  all: try (edestruct A2 as [? ?]; [by eauto|]; unfold mounted in *; 
            split; [congruence|]; by simplify_eq).
  all: try (edestruct A2 as [? ?]; [by eauto|]; unfold mounted in *; 
            repeat case_match; simplify_eq; congruence).
  destruct D2 as [? _]; done.
Qed.

Lemma run_HandleInv es : ∀ s s',
  reachable s → HandleInv s → run s es = Some s' → HandleInv s'.
Proof.
  induction es as [|e es IH]; intros s s' R I Hrun; cbn in Hrun; [by simplify_eq|].
  destruct (step s e) eqn:Hs; [|done].
  eapply IH; [by eapply reachable_step| |done].
  eauto using step_HandleInv, reachable_DatabaseInv.
Qed.

Lemma reachable_HandleInv s : reachable s → HandleInv s.
Proof.
  intros [es Hr]. eapply run_HandleInv; [by exists []| |done].
  split; cbn; intros; in_trace; try done.
  by apply not_elem_of_nil in H.
Qed.

(** X2.  The screen only ever closes the handle it holds: whenever
    [closeConnection] has been called on a handle, the screen has been torn
    down, that handle is the value of [database], and it is the one
    [setDatabase] was called with. *)
Theorem closes_only_its_own_handle (s : Screen) (db : DatabaseHandler) :
  reachable s →
  CloseConnection db ∈ trace s →
  lifecycle s = Unmounted
  ∧ database s = Some db
  ∧ SetDatabase db ∈ trace s
  ∧ count is_close (trace s) = 1.
Proof.
  intros Hr Hin. destruct (reachable_HandleInv _ Hr) as [A1 A2].
  destruct (A2 _ Hin) as [Hl Hd]. split_and!; eauto.
  destruct (reachable_BootstrapInv _ Hr) as [_ _ _ _ B5].
  assert (count is_close (trace s) ≠ 0); [|lia].
  clear -Hin. induction (trace s) as [|c l IH]; [by apply not_elem_of_nil in Hin|].
  apply elem_of_cons in Hin as [<-|Hin]; cbn; [done|]. destruct (is_close c); [done|].
  cbn. by apply IH.
Qed.

Lemma closes_only_its_own_handle_witness :
  ∃ s, run mount [Resolve 1 (Connected 7); Unmount] = Some s
    ∧ CloseConnection 7 ∈ trace s
    ∧ database s = Some 7
    ∧ SetDatabase 7 ∈ trace s.
Proof.
  destruct (run mount [Resolve 1 (Connected 7); Unmount]) as [s|] eqn:Hs;
    [|by vm_compute in Hs].
  assert (CloseConnection 7 ∈ trace s) as Hin.
  { vm_compute in Hs. simplify_eq. apply list_elem_of_here. }
  exists s. split; [reflexivity|]. split; [exact Hin|].
  destruct (closes_only_its_own_handle s 7 (ex_intro _ _ Hs) Hin) as (_ & H1 & H2 & _).
  split; [exact H1|exact H2].
Defined.

(** ** A granted permission *)

(** X3.  When the permission request resolves as granted on an active
    screen, the position is asked for, once.  When the position arrives
    and the screen is still active, it becomes the current location; from
    then on the location and the unset error never change, no second
    position is asked for, and the status line shows the latitude and the
    longitude of that fix. *)
Theorem granted_permission_stores_the_fix
    (toString : float → string) (s s1 : Screen) (p : nat) (position : LocationObject) :
  reachable s →
  pending s !! p = Some AwaitPermissions →
  active s = true →
  step s (Resolve p (PermissionsResult GRANTED)) = Some s1 →
  trace s1 = GetCurrentPositionAsync :: trace s
  ∧ pending s1 !! next s = Some AwaitPosition
  ∧ locationError s1 = None ∧ currentLocation s1 = None
  ∧ ∃ s2, step s1 (Resolve (next s) (PositionResult position)) = Some s2
      ∧ trace s2 = SetCurrentLocation position :: trace s1
      ∧ ∀ es s3, run s2 es = Some s3 →
          currentLocation s3 = Some position
          ∧ locationError s3 = None
          ∧ count is_position_query (trace s3) = 1
          ∧ locationStatus toString (locationError s3) (currentLocation s3)
            = "Ubicación: " +:+ toString (latitude (coords position)) +:+ ", "
                +:+ toString (longitude (coords position)).
Proof.
  intros Hr Hp Ha Hs.
  destruct (reachable_LocationInv _ Hr) as [I1 I2 _ _ _ _ _].
  destruct (I2 p Hp) as (He & Hl & Hc & Hno).
  cbn in Hs. rewrite Hp in Hs. cbn in Hs. rewrite Ha in Hs. cbn in Hs.
  rewrite bool_decide_true in Hs by done. cbn in Hs. simplify_eq. cbn in *.
  assert (Hq : <[next s:=AwaitPosition]> (delete p (pending s)) !! next s
               = Some AwaitPosition) by apply lookup_insert_eq.
  split_and!; try done.
  eexists. split; [by rewrite Hq; cbn; rewrite Ha|]. split; [done|].
  intros es s3 Hrun.
  eapply run_location_settled in Hrun as (_ & E1 & E2 & E3 & _).
  - cbn in *. rewrite E1, E2, E3, He, Hc. done.
  - clear Hq. intros q k Hk. cbn in Hk. lookups. destruct k; try done.
    + learn_from I1. by simplify_eq.
    + by destruct (Hno q).
Qed.

Lemma granted_permission_stores_the_fix_witness :
  let position := {| coords := {| latitude := 19.5; longitude := -99.25 |} |} in
  ∃ s1 s2 s3,
    step mount (Resolve 0 (PermissionsResult GRANTED)) = Some s1
    ∧ step s1 (Resolve 2 (PositionResult position)) = Some s2
    ∧ run s2 [Resolve 1 (Connected 7); Unmount] = Some s3
    ∧ currentLocation s3 = Some position
    ∧ locationError s3 = None.
Proof.
  intros position.
  destruct (step mount (Resolve 0 (PermissionsResult GRANTED))) as [s1|] eqn:Hs;
    [|by vm_compute in Hs].
  destruct (granted_permission_stores_the_fix (λ _, "") mount s1 0 position
              (ex_intro _ [] eq_refl) eq_refl eq_refl Hs)
    as (_ & _ & _ & _ & s2 & H2 & _ & H3).
  destruct (run s2 [Resolve 1 (Connected 7); Unmount]) as [s3|] eqn:Hs3.
  - exists s1, s2, s3. split; [reflexivity|]. split; [exact H2|]. split; [exact Hs3|].
    destruct (H3 _ _ Hs3) as (E1 & E2 & _). split; [exact E1|exact E2].
  - exfalso. vm_compute in Hs. simplify_eq. vm_compute in H2.
    simplify_eq; try (vm_compute in Hs3; done).
Defined.

(** ** Overlapping scans *)

Ltac lookup_pending :=
  cbn;
  repeat first [ rewrite lookup_insert_eq
               | rewrite lookup_insert_ne by lia
               | rewrite lookup_delete_ne by lia ];
  done.

Lemma step_scan s scanData :
  scanning s = true → step s (BarcodeScanned scanData) = Some (handleScanResult scanData s).
Proof. intros H. cbn. by rewrite H. Qed.

(** Runs the next event of an execution of the scan flow. *)
Ltac run_scan_event Hscan :=
  cbn [run];
  first [ rewrite resume_save by lookup_pending
        | rewrite (resume_fetch _ _ AfterScan) by lookup_pending
        | rewrite (step_scan _ _ Hscan) ].


(** X4.  [handleScanResult] has no guard against a second detection while
    the first is in flight.  When two codes are detected before either save
    resolves, both saves are submitted and each is followed by its own
    fetch; the record list ends as the result of the fetch that resolves
    last, so when the fetch of the first save resolves after the fetch of
    the second, the list shown is the older result. *)
Theorem overlapping_scans_last_fetch_wins
    (s : Screen) (first second : BarcodeScanningResult)
    (records1 records2 : list CodeRecord) :
  scanning s = true →
  (∃ s', run s [BarcodeScanned first; BarcodeScanned second;
                Resolve (next s) Saved; Resolve (S (next s)) Saved;
                Resolve (S (S (next s))) (Fetched records1);
                Resolve (S (S (S (next s)))) (Fetched records2)] = Some s'
     ∧ codeRecords s' = records2
     ∧ trace s' = [SetCodeRecords records2; SetCodeRecords records1;
                   FetchAllCodes AfterScan; FetchAllCodes AfterScan;
                   SaveCode (data second) (type second);
                   AlertAlert "Código detectado" (data second);
                   SaveCode (data first) (type first);
                   AlertAlert "Código detectado" (data first)] ++ trace s)%list
  ∧ (∃ s', run s [BarcodeScanned first; BarcodeScanned second;
                  Resolve (next s) Saved; Resolve (S (next s)) Saved;
                  Resolve (S (S (S (next s)))) (Fetched records2);
                  Resolve (S (S (next s))) (Fetched records1)] = Some s'
     ∧ codeRecords s' = records1)
  ∧ (∃ s', run s [BarcodeScanned first; BarcodeScanned second;
                  Resolve (S (next s)) Saved;
                  Resolve (S (S (next s))) (Fetched records2);
                  Resolve (next s) Saved;
                  Resolve (S (S (S (next s)))) (Fetched records1)] = Some s'
     ∧ codeRecords s' = records1
     ∧ count is_save (trace s') = 2 + count is_save (trace s)
     ∧ count (is_fetch AfterScan) (trace s') = 2 + count (is_fetch AfterScan) (trace s)).
Proof.
  intros Hscan.
  assert (Hscan1 : scanning (handleScanResult first s) = true) by done.
  split_and!.
  - eexists. split.
    + run_scan_event Hscan. run_scan_event Hscan1.
      do 4 run_scan_event Hscan. reflexivity.
    + done.
  - eexists. split.
    + run_scan_event Hscan. run_scan_event Hscan1.
      do 4 run_scan_event Hscan. reflexivity.
    + done.
  - eexists. split.
    + run_scan_event Hscan. run_scan_event Hscan1.
      do 4 run_scan_event Hscan. reflexivity.
    + done.
Qed.

Lemma overlapping_scans_last_fetch_wins_witness :
  let s := with_cameraPermissions (Some {| granted := true |}) mount in
  let code1 := {| data := "A"; type := "qr" |} in
  let code2 := {| data := "B"; type := "ean13" |} in
  let a := {| id := Some "1"; content := "A"; format := "qr" |} in
  let b := {| id := Some "2"; content := "B"; format := "ean13" |} in
  scanning s = true
  ∧ ∃ s', run s [BarcodeScanned code1; BarcodeScanned code2;
                 Resolve 2 Saved; Resolve 3 Saved;
                 Resolve 5 (Fetched [a; b]); Resolve 4 (Fetched [a])] = Some s'
      ∧ codeRecords s' = [a].
Proof.
  intros s code1 code2 a b. split; [reflexivity|].
  destruct (overlapping_scans_last_fetch_wins s code1 code2 [a] [a; b] eq_refl)
    as (_ & (s' & H1 & H2) & _).
  exists s'. split; [exact H1|exact H2].
Defined.

(** ** A database that does not open *)

Lemma step_connect_settled s e s' :
  step s e = Some s' →
  connect_settled s → database s = None → cleanup s = None →
  connect_settled s' ∧ database s' = None ∧ cleanup s' = None
  ∧ count is_set_database (trace s') = count is_set_database (trace s)
  ∧ count (is_fetch OnDatabaseReady) (trace s') = count (is_fetch OnDatabaseReady) (trace s)
  ∧ count is_close (trace s') = count is_close (trace s).
Proof.
  intros H Hq Hd Hc. unfold connect_settled in *.
  step_cases H;
    try match goal with
    | Hp : pending s !! _ = Some AwaitConnect |- _ => by apply Hq in Hp
    end.
  all: unfold_handlers; split_and!; try done.
  all: intros q Hk; cbn in Hk; lookups; by eapply Hq.
Qed.

Lemma run_connect_settled es : ∀ s s',
  run s es = Some s' →
  connect_settled s → database s = None → cleanup s = None →
  database s' = None
  ∧ count is_set_database (trace s') = count is_set_database (trace s)
  ∧ count (is_fetch OnDatabaseReady) (trace s') = count (is_fetch OnDatabaseReady) (trace s)
  ∧ count is_close (trace s') = count is_close (trace s).
Proof.
  induction es as [|e es IH]; intros s s' Hr Hq Hd Hc; cbn in Hr; [by simplify_eq|].
  destruct (step s e) as [s1|] eqn:Hs; [|done].
  destruct (step_connect_settled _ _ _ Hs Hq Hd Hc) as (Hq1 & Hd1 & Hc1 & <- & <- & <-).
  by apply IH.
Qed.

(** X5.  Nothing catches a failure of [connectDatabase].  When the open is
    rejected, [database] stays undefined for the rest of the session:
    [setDatabase] is never called, the records on file are never fetched by
    the effect, and teardown closes nothing. *)
Theorem rejected_open_leaves_no_handle
    (s s1 s2 : Screen) (p : nat) (es : list Event) :
  reachable s →
  pending s !! p = Some AwaitConnect →
  step s (Reject p) = Some s1 →
  run s1 es = Some s2 →
  database s2 = None
  ∧ count is_set_database (trace s2) = 0
  ∧ count (is_fetch OnDatabaseReady) (trace s2) = 0
  ∧ count is_close (trace s2) = 0.
Proof.
  intros Hr Hp Hs Hrun.
  destruct (reachable_DatabaseInv _ Hr) as [D1 D2 _ _ _ _].
  destruct (reachable_BootstrapInv _ Hr) as [_ _ B3 _ _].
  destruct (D1 p Hp) as [-> Hd]. destruct (D2 Hd) as (Hc & Hf & Hcl).
  cbn in Hs. rewrite Hp in Hs. simplify_eq.
  eapply run_connect_settled in Hrun as (E1 & E2 & E3 & E4); try done.
  - cbn in *. rewrite E2, E3, E4, (B3 Hd). done.
  - intros q Hq. cbn in Hq. lookups. destruct (D1 q) as [? _]; done.
Qed.

Lemma rejected_open_leaves_no_handle_witness :
  ∃ s1 s2, step mount (Reject 1) = Some s1
    ∧ run s1 [CameraPermissionsChange {| granted := true |};
              BarcodeScanned {| data := "A"; type := "qr" |};
              Resolve 2 Saved; Unmount] = Some s2
    ∧ database s2 = None
    ∧ count (is_fetch OnDatabaseReady) (trace s2) = 0
    ∧ count is_close (trace s2) = 0.
Proof.
  destruct (step mount (Reject 1)) as [s1|] eqn:Hs1; [|by vm_compute in Hs1].
  destruct (run s1 [CameraPermissionsChange {| granted := true |};
                    BarcodeScanned {| data := "A"; type := "qr" |};
                    Resolve 2 Saved; Unmount]) as [s2|] eqn:Hs;
    [|vm_compute in Hs1; simplify_eq; by vm_compute in Hs].
  exists s1, s2. split; [reflexivity|]. split; [exact Hs|].
  assert (pending mount !! 1 = Some AwaitConnect) as Hp by (vm_compute; reflexivity).
  destruct (rejected_open_leaves_no_handle mount s1 s2 1 _
              (ex_intro _ [] eq_refl) Hp Hs1 Hs) as (H1 & _ & H3 & H4).
  split; [exact H1|]. split; [exact H3|exact H4].
Defined.

(** ** What an execution adds to the trace *)

Lemma step_accounting s e s' :
  step s e = Some s' →
  count is_save (trace s') = count is_save (trace s) + (if is_scan e then 1 else 0)
  ∧ count (is_fetch AfterScan) (trace s')
    = count (is_fetch AfterScan) (trace s) + (if is_saved e then 1 else 0)
  ∧ count is_records_setter (trace s')
    = count is_records_setter (trace s) + (if is_fetched e then 1 else 0)
  ∧ count is_clipboard (trace s')
    = count is_clipboard (trace s) + (if is_copy e then 1 else 0).
Proof.
  intros H. step_cases H; unfold_handlers; cbn; split_and!; lia.
Qed.

(** X6.  Over any execution the screen submits one save per scan event it
    received, issues one fetch per save that resolved (a rejected save is
    followed by none), calls [setCodeRecords] once per fetch that resolved,
    and writes the clipboard once per press of a copy button. *)
Theorem calls_match_events (es : list Event) : ∀ s s',
  run s es = Some s' →
  count is_save (trace s') = count is_save (trace s) + occurrences is_scan es
  ∧ count (is_fetch AfterScan) (trace s')
    = count (is_fetch AfterScan) (trace s) + occurrences is_saved es
  ∧ count is_records_setter (trace s')
    = count is_records_setter (trace s) + occurrences is_fetched es
  ∧ count is_clipboard (trace s')
    = count is_clipboard (trace s) + occurrences is_copy es.
Proof.
  induction es as [|e es IH]; intros s s' Hr; cbn in Hr.
  - simplify_eq. cbn. split_and!; lia.
  - destruct (step s e) as [s1|] eqn:Hs; [|done].
    destruct (step_accounting _ _ _ Hs) as (E1 & E2 & E3 & E4).
    destruct (IH _ _ Hr) as (F1 & F2 & F3 & F4).
    cbn [occurrences]. split_and!; lia.
Qed.

Lemma calls_match_events_witness :
  ∃ s', run mount [CameraPermissionsChange {| granted := true |};
                   BarcodeScanned {| data := "A"; type := "qr" |};
                   BarcodeScanned {| data := "A"; type := "qr" |};
                   Resolve 2 Saved; Reject 3; Resolve 4 (Fetched [])] = Some s'
    ∧ count is_save (trace s') = 2
    ∧ count (is_fetch AfterScan) (trace s') = 1
    ∧ count is_records_setter (trace s') = 1.
Proof.
  destruct (run mount [CameraPermissionsChange {| granted := true |};
                   BarcodeScanned {| data := "A"; type := "qr" |};
                   BarcodeScanned {| data := "A"; type := "qr" |};
                   Resolve 2 Saved; Reject 3; Resolve 4 (Fetched [])])
    as [s'|] eqn:Hs; [|by vm_compute in Hs].
  exists s'. split; [reflexivity|].
  destruct (calls_match_events _ _ _ Hs) as (H1 & H2 & H3 & _).
  split; [exact H1|]. split; [exact H2|exact H3].
Defined.

(** ** The camera view *)

Lemma step_camera_not_granted s e s' :
  step s e = Some s' → cameraGranted s = false → grants_camera e = false →
  cameraGranted s' = false ∧ is_scan e = false ∧ is_copy e = false.
Proof.
  intros H Hg He. unfold cameraGranted in *.
  step_cases H; unfold scanning in *; unfold_handlers; try done.
  all: simplify_eq; rewrite ?Hg, ?andb_false_r in *; try done; split_and!; congruence.
Qed.

Lemma step_unmounted_no_input s e s' :
  step s e = Some s' → lifecycle s = Unmounted →
  is_scan e = false ∧ is_copy e = false.
Proof.
  intros H Hl.
  step_cases H; unfold scanning, mounted in *; rewrite ?Hl in *; done.
Qed.

(** X7.  The camera view and the list are rendered only once the camera
    permission is granted, and nothing is rendered after teardown.  So an
    execution in which the permission is never reported as granted
    contains no scan event and no copy, the screen submits no save and
    never shows the scanner view; and after teardown no scan or copy
    arrives and no further save is submitted, whatever is still pending. *)
Theorem no_scan_without_camera_view :
  (∀ es s, run mount es = Some s → occurrences grants_camera es = 0 →
     occurrences is_scan es = 0 ∧ occurrences is_copy es = 0
     ∧ count is_save (trace s) = 0 ∧ count is_clipboard (trace s) = 0
     ∧ ∀ toString status records, render toString s ≠ ScannerView status records)
  ∧ (∀ es s s', lifecycle s = Unmounted → run s es = Some s' →
     occurrences is_scan es = 0 ∧ occurrences is_copy es = 0
     ∧ count is_save (trace s') = count is_save (trace s)
     ∧ count is_clipboard (trace s') = count is_clipboard (trace s)).
Proof.
  split.
  - intros es s Hr Hg.
    assert (∀ s0, run s0 es = Some s → cameraGranted s0 = false →
              occurrences is_scan es = 0 ∧ occurrences is_copy es = 0
              ∧ cameraGranted s = false) as G.
    { clear Hr. induction es as [|e es IH]; intros s0 Hr H0; cbn in Hr.
      - by simplify_eq.
      - destruct (step s0 e) as [s1|] eqn:Hs; [|done]. cbn in Hg.
        destruct (grants_camera e) eqn:He; [lia|].
        destruct (step_camera_not_granted _ _ _ Hs H0 He) as (H1 & Es & Ec).
        cbn [occurrences]. rewrite Es, Ec. cbn. by eapply IH. }
    destruct (G _ Hr eq_refl) as (E1 & E2 & E3).
    destruct (calls_match_events _ _ _ Hr) as (F1 & _ & _ & F4).
    rewrite E1 in F1. rewrite E2 in F4. split_and!; try done.
    intros f st r. unfold render, cameraGranted in *.
    destruct (cameraPermissions s); [|done]. rewrite E3. done.
  - intros es s s' Hl Hr.
    assert (occurrences is_scan es = 0 ∧ occurrences is_copy es = 0) as [E1 E2].
    { revert s Hl Hr. induction es as [|e es IH]; intros s Hl Hr; cbn in Hr; [done|].
      destruct (step s e) as [s1|] eqn:Hs; [|done].
      destruct (step_unmounted_no_input _ _ _ Hs Hl) as [Es Ec].
      destruct (step_unmounted _ _ _ Hs Hl) as (Hl1 & _).
      cbn [occurrences]. rewrite Es, Ec. cbn. by eapply IH. }
    destruct (calls_match_events _ _ _ Hr) as (F1 & _ & _ & F4).
    split_and!; try done; lia.
Qed.

(** ** What is copied *)

Lemma step_clipboard s e s' :
  step s e = Some s' →
  records_fetched s ∧ clipboard_from_records s →
  records_fetched s' ∧ clipboard_from_records s'.
Proof.
  intros H [R C]. unfold records_fetched, clipboard_from_records in *.
  assert (∀ c text, SetStringAsync text ∈ trace s →
            ∃ records item, SetCodeRecords records ∈ c :: trace s
              ∧ item ∈ records ∧ content item = text) as C1.
  { intros c text Hin. destruct (C _ Hin) as (r & i & ? & ? & ?).
    exists r, i. eauto using list_elem_of_further. }
  assert (∀ c c' text, SetStringAsync text ∈ trace s →
            ∃ records item, SetCodeRecords records ∈ c :: c' :: trace s
              ∧ item ∈ records ∧ content item = text) as C2.
  { intros c c' text Hin. destruct (C _ Hin) as (r & i & ? & ? & ?).
    exists r, i. eauto using list_elem_of_further. }
  step_cases H; unfold_handlers.
  all: split; [|intros text Hin; in_trace; eauto].
  all: try (destruct R as [R|R]; [by left|right; eauto using list_elem_of_further]).
  all: try (right; apply list_elem_of_here).
  all: try (match goal with
            | Hin : SetStringAsync _ ∈ trace _ |- _ =>
                destruct (C _ Hin) as (r & i & ? & ? & ?); exists r, i;
                split; [by repeat apply list_elem_of_further|done]
            end).
  (* the copy button of an item of the list *)
  match goal with
  | Hb : _ && bool_decide (_ ∈ _) = true |- _ =>
      apply andb_true_iff in Hb as [_ Hitem]; apply bool_decide_eq_true in Hitem
  end.
  destruct R as [R|R]; [rewrite R in *; by apply not_elem_of_nil in Hitem|].
  eexists _, _. split; [|done]. eauto using list_elem_of_further.
Qed.

Lemma run_clipboard es : ∀ s s',
  run s es = Some s' →
  records_fetched s ∧ clipboard_from_records s →
  records_fetched s' ∧ clipboard_from_records s'.
Proof.
  induction es as [|e es IH]; intros s s' Hr I; cbn in Hr; [by simplify_eq|].
  destruct (step s e) as [s1|] eqn:Hs; [|done]. eauto using step_clipboard.
Qed.

(** X8.  A copy button exists only for an item of the record list, and the
    list only ever holds what [setCodeRecords] was given.  So every text
    the screen has put on the clipboard is the content of a record of a list
    that was passed to [setCodeRecords] earlier in the session; in
    particular nothing is copied before a first fetch has resolved. *)
Theorem clipboard_holds_fetched_content (s : Screen) (text : string) :
  reachable s →
  SetStringAsync text ∈ trace s →
  ∃ records item,
    SetCodeRecords records ∈ trace s ∧ item ∈ records ∧ content item = text.
Proof.
  intros [es Hr] Hin.
  eapply run_clipboard in Hr as [_ C]; [by apply C|].
  split; [by left|]. intros t Ht. cbn in Ht.
  repeat (apply elem_of_cons in Ht as [?|Ht]; [done|]).
  by apply not_elem_of_nil in Ht.
Qed.

Lemma clipboard_holds_fetched_content_witness :
  let item := {| id := None; content := "ABC123"; format := "qr" |} in
  ∃ s, run mount [CameraPermissionsChange {| granted := true |};
                  Resolve 1 (Connected 7); Resolve 2 (Fetched [item]);
                  PressCopy item] = Some s
    ∧ SetStringAsync "ABC123" ∈ trace s
    ∧ ∃ records found,
        SetCodeRecords records ∈ trace s ∧ found ∈ records ∧ content found = "ABC123".
Proof.
  intros item.
  destruct (run mount [CameraPermissionsChange {| granted := true |};
                  Resolve 1 (Connected 7); Resolve 2 (Fetched [item]);
                  PressCopy item]) as [s|] eqn:Hs; [|by vm_compute in Hs].
  assert (SetStringAsync "ABC123" ∈ trace s) as Hin.
  { vm_compute in Hs. simplify_eq. apply list_elem_of_further, list_elem_of_here. }
  exists s. split; [reflexivity|]. split; [exact Hin|].
  exact (clipboard_holds_fetched_content s "ABC123" (ex_intro _ _ Hs) Hin).
Defined.

(** ** Teardown *)

(** X11.  Teardown of the mounted screen lowers the liveness flag and makes
    at most one call, the close of the handle the screen holds: without a
    handle it makes no call at all.  It cancels nothing: every promise that
    was pending stays pending, and the state cells keep their values. *)
Theorem teardown_only_closes (s : Screen) :
  reachable s →
  lifecycle s = Mounted →
  ∃ s', step s Unmount = Some s'
    ∧ trace s' = match database s with
                 | Some db => CloseConnection db :: trace s
                 | None => trace s
                 end
    ∧ active s = true ∧ active s' = false
    ∧ pending s' = pending s
    ∧ (codeRecords s', database s', currentLocation s', locationError s')
      = (codeRecords s, database s, currentLocation s, locationError s)
    ∧ step s' Unmount = None.
Proof.
  intros Hr Hl. destruct (reachable_DatabaseInv _ Hr) as [_ _ D3 _ _ _].
  destruct (D3 Hl) as (Hc & _ & Ha).
  exists (unmount s). split; [cbn; unfold mounted; by rewrite Hl|].
  unfold unmount, runCleanup. cbn. rewrite Hc.
  destruct (database s) eqn:Hd; cbn; unfold mounted; cbn; rewrite ?Hd; split_and!; done.
Qed.

Lemma teardown_only_closes_witness :
  ∃ s s', run mount [Resolve 1 (Connected 7);
                     CameraPermissionsChange {| granted := true |};
                     BarcodeScanned {| data := "A"; type := "qr" |}] = Some s
    ∧ step s Unmount = Some s'
    ∧ trace s' = CloseConnection 7 :: trace s
    ∧ pending s' = pending s.
Proof.
  destruct (run mount [Resolve 1 (Connected 7);
                     CameraPermissionsChange {| granted := true |};
                     BarcodeScanned {| data := "A"; type := "qr" |}])
    as [s|] eqn:Hs; [|by vm_compute in Hs].
  assert (lifecycle s = Mounted ∧ database s = Some 7) as [Hl Hd]
    by (vm_compute in Hs; simplify_eq; done).
  destruct (teardown_only_closes s (ex_intro _ _ Hs) Hl)
    as (s' & H1 & H2 & _ & _ & H3 & _).
  rewrite Hd in H2.
  exists s, s'. split; [reflexivity|]. split; [exact H1|]. split; [exact H2|exact H3].
Defined.

(** ** Keys of the list *)

Lemma keyExtractor_has_id toString random item k :
  id item = Some k → k ≠ "" → keyExtractor toString random item = k.
Proof. intros Hi Hk. unfold keyExtractor. rewrite Hi. by destruct k. Qed.

(** X12.  An item that carries a non-empty id is keyed by that id, whatever
    [Math.random] returns, so its key is the same in every render; when all
    the items of a list carry ids and the ids are distinct, the keys are
    distinct.  An item without id, or with the empty id, is keyed by the
    random draw. *)
Theorem keys_are_the_ids
    (toString : float → string) (randoms : list float) (items : list CodeRecord) :
  length randoms = length items →
  (∀ item, item ∈ items → has_id item) →
  keys toString randoms items = (λ item, default "" (id item)) <$> items
  ∧ (NoDup (id <$> items) → NoDup (keys toString randoms items))
  ∧ (∀ random item, id item = None ∨ id item = Some "" →
       keyExtractor toString random item = toString (random * 10000)%float).
Proof.
  intros Hlen Hid.
  assert (E : keys toString randoms items = (λ item, default "" (id item)) <$> items).
  { unfold keys. revert randoms Hlen.
    induction items as [|item items IH]; intros [|r rs] Hlen; cbn in *; try done.
    destruct (Hid item) as (k & Hk & Hne); [apply list_elem_of_here|].
    rewrite (keyExtractor_has_id _ _ _ k), Hk by done. cbn. f_equal.
    apply IH; [|lia]. intros i Hi. apply Hid. by apply list_elem_of_further. }
  split_and!; [done| |].
  - intros Hnd. rewrite E.
    replace ((λ item, default "" (id item)) <$> items)
      with (default "" <$> (id <$> items)) by (by rewrite <-list_fmap_compose).
    revert Hnd. generalize (fun i => Hid i). clear.
    induction items as [|item items IH]; intros Hid Hnd; cbn; [constructor|].
    apply NoDup_cons in Hnd as [Hnot Hnd]. apply NoDup_cons. split.
    + intros Hin. apply Hnot. apply list_elem_of_fmap in Hin as (o & Ho & Hin).
      apply list_elem_of_fmap in Hin as (j & -> & Hj).
      destruct (Hid item) as (k & Hk & _); [apply list_elem_of_here|].
      destruct (Hid j) as (k' & Hk' & _); [by apply list_elem_of_further|].
      rewrite Hk, Hk' in *. cbn in Ho. subst.
      apply list_elem_of_fmap. exists j. by rewrite Hk'.
    + apply IH; [|done]. intros i Hi. apply Hid. by apply list_elem_of_further.
  - intros r item [Hn|Hn]; unfold keyExtractor; by rewrite Hn.
Qed.

Lemma keys_are_the_ids_witness :
  let a := {| id := Some "1"; content := "A"; format := "qr" |} in
  let b := {| id := Some "2"; content := "A"; format := "qr" |} in
  keys (λ _, "?") [0.25%float; 0.5%float] [a; b] = ["1"; "2"]
  ∧ NoDup (keys (λ _, "?") [0.25%float; 0.5%float] [a; b]).
Proof.
  intros a b.
  assert (∀ item, item ∈ [a; b] → has_id item) as Hid.
  { intros item Hin. apply elem_of_cons in Hin as [->|Hin].
    - by exists "1".
    - apply elem_of_cons in Hin as [->|Hin]; [by exists "2"|].
      by apply not_elem_of_nil in Hin. }
  destruct (keys_are_the_ids (λ _, "?") [0.25%float; 0.5%float] [a; b] eq_refl Hid)
    as (H1 & H2 & _).
  split; [exact H1|]. apply H2.
  apply (bool_decide_eq_true_1 (NoDup (id <$> [a; b]))). vm_compute. reflexivity.
Defined.
